(** * DBDash: the multi-dialect database gateway

    A shallow embedding of [backend/src/dbManager.js] (class [DBManager]) and
    of the row and data routes of [backend/src/routes/databases.js].

    JavaScript values are an inductive type, objects are association lists in
    property order, [process.env] is a finite map, the registry
    ([this.connections], a JS [Map]) is an association list in insertion
    order.  What the program calls but does not define (the built-ins
    [JSON.parse], [parseInt], [String.prototype.toLowerCase] and the three
    database drivers) is gathered in the record [runtime]; every definition
    and theorem below is parametric in it.  Calls into the drivers are
    recorded in a trace, so that "a pool was ended" or "no connection was
    opened" are statements about that trace.  [console.log] and
    [console.error] are not modelled.  Numbers are integers or NaN (the
    gateway computes with none but counts and indices), and the properties
    of an object stay in the order they were written, integer-like keys
    included. *)

From Stdlib Require Import Ascii String.
From stdpp Require Import gmap strings list pretty.

Open Scope string_scope.
Open Scope list_scope.

(** ** JavaScript values *)

#[warnings="-register-all"]
Inductive value : Type :=
| VUndefined
| VNull
| VBool (b : bool)
| VNum (n : Z)
| VNaN
| VStr (s : string)
| VArr (items : list value)
| VObj (props : list (string * value)).

(** An object is its list of own enumerable properties, in property order. *)
Definition obj : Type := list (string * value).

Fixpoint obj_get (o : obj) (k : string) : value :=
  match o with
  | [] => VUndefined
  | (k', v) :: rest => if String.eqb k' k then v else obj_get rest k
  end.

Fixpoint obj_has (o : obj) (k : string) : bool :=
  match o with
  | [] => false
  | (k', _) :: rest => String.eqb k' k || obj_has rest k
  end.

(** [o[k] = v]: an existing property keeps its place, a new one goes last.
    (JavaScript lists integer-like keys before the others; an object that
    has such keys is given here in the order JavaScript would list it, and
    the objects built by [spread] are read by key only.) *)
Fixpoint obj_set (o : obj) (k : string) (v : value) : obj :=
  match o with
  | [] => [(k, v)]
  | (k', v') :: rest =>
      if String.eqb k' k then (k', v) :: rest else (k', v') :: obj_set rest k v
  end.

Fixpoint indexed_from {A : Type} (i : nat) (l : list A) : list (string * A) :=
  match l with
  | [] => []
  | x :: rest => (pretty i, x) :: indexed_from (S i) rest
  end.

Fixpoint chars (s : string) : list value :=
  match s with
  | EmptyString => []
  | String c rest => VStr (String c EmptyString) :: chars rest
  end.

(** The own enumerable properties that [{...v}], [Object.keys(v)] and
    [Object.values(v)] see. *)
Definition own_props (v : value) : obj :=
  match v with
  | VObj props => props
  | VArr items => indexed_from 0 items
  | VStr s => indexed_from 0 (chars s)
  | _ => []
  end.

(** [{...target, ...src}]: the properties of [src] are assigned in order. *)
Definition spread (target : obj) (src : value) : obj :=
  fold_left (λ acc kv, obj_set acc kv.1 kv.2) (own_props src) target.

Definition truthy (v : value) : bool :=
  match v with
  | VUndefined | VNull | VNaN => false
  | VBool b => b
  | VNum n => negb (Z.eqb n 0)
  | VStr s => negb (String.eqb s EmptyString)
  | VArr _ | VObj _ => true
  end.

(** [v === VStr s], the only strict comparisons the gateway makes are against
    a string or against [false]. *)
Definition strict_eq_str (v : value) (s : string) : bool :=
  match v with VStr s' => String.eqb s' s | _ => false end.

Definition strict_eq_false (v : value) : bool :=
  match v with VBool false => true | _ => false end.

Definition is_undefined (v : value) : bool :=
  match v with VUndefined => true | _ => false end.

(** String conversion of a template literal, [`${v}`].  A number is printed
    with all its digits, which is what JavaScript does for an integer below
    10^21 in absolute value that a double holds exactly; larger numbers and
    fractions are outside the model. *)
Fixpoint to_String (v : value) : string :=
  match v with
  | VUndefined => "undefined"
  | VNull => "null"
  | VBool true => "true"
  | VBool false => "false"
  | VNum n => pretty n
  | VNaN => "NaN"
  | VStr s => s
  | VObj _ => "[object Object]"
  | VArr items =>
      (fix join (l : list value) : string :=
         match l with
         | [] => EmptyString
         | x :: rest =>
             let sx := match x with
                       | VUndefined | VNull => EmptyString
                       | _ => to_String x
                       end in
             match rest with
             | [] => sx
             | _ :: _ => sx +:+ "," +:+ join rest
             end
         end) items
  end.

(** [Array.prototype.join]. *)
Fixpoint join (sep : string) (l : list string) : string :=
  match l with
  | [] => EmptyString
  | [x] => x
  | x :: rest => x +:+ sep +:+ join sep rest
  end.

(** An optional string (a value of [process.env], a query parameter) used as
    a condition or under [||]. *)
Definition str_truthy (o : option string) : bool :=
  match o with
  | Some s => negb (String.eqb s EmptyString)
  | None => false
  end.

Definition str_or (o : option string) (d : string) : string :=
  match o with
  | Some s => if String.eqb s EmptyString then d else s
  | None => d
  end.

Definition opt_value (o : option string) : value :=
  match o with Some s => VStr s | None => VUndefined end.

(** [switch] labels: [one_of s labels] holds when [s] is one of the [case]
    labels. *)
Definition one_of (s : string) (labels : list string) : bool :=
  existsb (String.eqb s) labels.

(** ** Thrown errors *)

Record js_error : Type := JsError { err_name : string; err_message : string }.

Definition Error (msg : string) : js_error := JsError "Error" msg.
Definition TypeError (msg : string) : js_error := JsError "TypeError" msg.

(** [error.toString()]. *)
Definition error_toString (e : js_error) : string :=
  if String.eqb (err_name e) EmptyString then err_message e
  else if String.eqb (err_message e) EmptyString then err_name e
  else err_name e +:+ ": " +:+ err_message e.

Inductive outcome (A : Type) : Type :=
| Returns (a : A)
| Throws (e : js_error).
Arguments Returns {A} a.
Arguments Throws {A} e.

(** ** What the drivers answer *)

Definition row : Type := obj.

(** What a driver hands back as "the rows": an array of rows, nothing at all
    (the [recordset] of an mssql statement that selects nothing is
    [undefined]), or mysql2's header object for a statement without a result
    set. *)
Inductive rowset : Type :=
| Rows (l : list row)
| NoRows
| Header.

Record pg_result : Type := PgResult {
  pg_rows : list row;
  pg_rowCount : option Z          (* [null] for commands without a count *)
}.

Record mssql_result : Type := MssqlResult {
  recordset : rowset;
  rowsAffected : list Z
}.

(** The normalised result of [DBManager.query]; [rowCount] is [undefined]
    ([None]) where the code reads [.length] off a header object. *)
Record QueryResult : Type := mkQueryResult {
  rows : rowset;
  rowCount : option Z
}.

(** The calls that leave the process. *)
Inductive call : Type :=
| NewPool (cfg : obj)                                  (* [new Pool(cfg)] *)
| CreatePool (cfg : obj)                               (* [mysql.createPool(cfg)] *)
| PoolEnd (cfg : obj)                                  (* [connection.end()] *)
| PgQuery (cfg : obj) (text : string) (params : list value)
| MysqlExecute (cfg : obj) (text : string) (params : list value)
| MssqlConnect (cfg : obj)                           (* [sql.connect(cfg)] *)
| MssqlQuery (text : string)                           (* [pool.request().query(text)] *)
| MssqlClose.                                          (* [pool.close()] *)

(** Built-ins and drivers, as the program sees them. *)
Record runtime : Type := Runtime {
  JSON_parse : string → option value;      (* [None]: throws SyntaxError *)
  parseInt : string → value;               (* a [VNum] or [VNaN] *)
  toLowerCase : string → string;
  pg_new_Pool : obj → option js_error;     (* [Some e]: the constructor throws [e] *)
  mysql_createPool : obj → option js_error;
  pg_query : obj → string → list value → outcome pg_result;
  mysql_execute : obj → string → list value → outcome rowset;
  mssql_connect : obj → option js_error;
  mssql_query : obj → string → outcome mssql_result;
  mssql_close : obj → option js_error
}.
Existing Class runtime.

(** ** Descriptors, handles and registry entries *)

Record config : Type := Config {
  id : string;
  name : string;
  type : string;
  host : value;
  port : value;
  user : value;
  password : value;
  database : value;
  options : value
}.

Inductive handle : Type :=
| PgPool (cfg : obj) (ended : bool)
| MysqlPool (cfg : obj)
| MssqlConfig (cfg : obj).       (* the object [{ config: cfg }] *)

Inductive conn_status : Type := connected | error_status.

(** [{ ...config, connection, status, error }]; [connection = None] is
    [null], [error = None] is an absent [error] property. *)
Record entry : Type := Entry {
  descriptor : config;
  connection : option handle;
  status : conn_status;
  error : option string
}.

(** [this.connections]: a [Map] keeps insertion order, and [set] on a key
    that is already there replaces the value in place. *)
Definition registry : Type := list (string * entry).

Fixpoint connections_get (reg : registry) (k : string) : option entry :=
  match reg with
  | [] => None
  | (k', e) :: rest => if String.eqb k' k then Some e else connections_get rest k
  end.

Fixpoint connections_set (reg : registry) (k : string) (e : entry) : registry :=
  match reg with
  | [] => [(k, e)]
  | (k', e') :: rest =>
      if String.eqb k' k then (k', e) :: rest
      else (k', e') :: connections_set rest k e
  end.

Record state : Type := State {
  process_env : gmap string string;
  connections : registry
}.

(** ** The effect monad of the asynchronous methods

    A computation yields the driver calls it made and either a value or the
    error it threw. *)

Definition M (A : Type) : Type := list call * outcome A.

Definition ret {A : Type} (a : A) : M A := ([], Returns a).

Definition throw {A : Type} (e : js_error) : M A := ([], Throws e).

Definition bind {A B : Type} (m : M A) (k : A → M B) : M B :=
  match m with
  | (t, Returns a) => let '(t', r) := k a in (t ++ t', r)
  | (t, Throws e) => (t, Throws e)
  end.

(** [try { m } catch (error) { h error }]. *)
Definition try_catch {A : Type} (m : M A) (h : js_error → M A) : M A :=
  match m with
  | (t, Returns a) => (t, Returns a)
  | (t, Throws e) => let '(t', r) := h e in (t ++ t', r)
  end.

(** A driver call that returns nothing, and one that returns a value. *)
Definition perform (c : call) (answer : option js_error) : M unit :=
  ([c], match answer with None => Returns tt | Some e => Throws e end).

Definition request {A : Type} (c : call) (answer : outcome A) : M A :=
  ([c], answer).

#[global] Instance M_ret : MRet M := @ret.
#[global] Instance M_bind : MBind M := λ A B k m, bind m k.

Definition trace {A : Type} (m : M A) : list call := m.1.
Definition result {A : Type} (m : M A) : outcome A := m.2.

(** ** What the gateway answers *)

(** One element of [getAllConnections()]. *)
Record connection_info : Type := ConnectionInfo {
  info_id : string;
  info_name : string;
  info_type : string;
  info_status : conn_status;
  info_error : option string          (* [None] is [null] *)
}.

(** A handler answers with a JSON body, or with a status code and
    [{ error: message }]. *)
Inductive response (A : Type) : Type :=
| Json (body : A)
| Failure (code : nat) (message : string).
Arguments Json {A} body.
Arguments Failure {A} code message.

(** [{ rows, count }] and [{ success: true }]. *)
Record data_body : Type := DataBody {
  body_rows : rowset;
  body_count : Z
}.

Record success_body : Type := Success { success : bool }.

(** ** Statement texts

    The catalog queries of [getTableSchema], character for character. *)

Definition schema_query_postgres : string :=
"
          SELECT 
            column_name as name,
            data_type as type,
            is_nullable as nullable,
            column_default as default_value
          FROM information_schema.columns
          WHERE table_schema = COALESCE($1, 'public')
            AND table_name = $2
          ORDER BY ordinal_position
        ".

Definition schema_query_mysql : string :=
"
          SELECT 
            column_name as name,
            data_type as type,
            is_nullable as nullable,
            column_default as default_value
          FROM information_schema.columns
          WHERE table_schema = ? AND table_name = ?
          ORDER BY ordinal_position
        ".

Definition schema_query_mssql : string :=
"
          SELECT 
            column_name as name,
            data_type as type,
            is_nullable as nullable,
            column_default as default_value
          FROM information_schema.columns
          WHERE table_schema = COALESCE(?, 'dbo')
            AND table_name = ?
          ORDER BY ordinal_position
        ".

(** The catalog queries of [getTables]. *)

Definition tables_query_postgres : string :=
"
          SELECT table_name as name, 
                 table_schema as schema
          FROM information_schema.tables 
          WHERE table_schema NOT IN ('pg_catalog', 'information_schema')
          ORDER BY table_schema, table_name
        ".

Definition tables_query_mysql : string :=
"
          SELECT table_name as name, 
                 table_schema as schema
          FROM information_schema.tables 
          WHERE table_schema = ?
          ORDER BY table_name
        ".

Definition tables_query_mssql : string :=
"
          SELECT table_name as name, 
                 table_schema as schema
          FROM information_schema.tables 
          WHERE table_type = 'BASE TABLE'
          ORDER BY table_schema, table_name
        ".

(** ** A sample runtime

    One concrete [runtime], on which the theorems are instantiated and the
    program is evaluated at particular inputs: ASCII lower-casing, a
    [parseInt] that reads a leading run of decimal digits, a [JSON.parse]
    that knows a few literals, drivers whose pools always construct, a
    PostgreSQL and a MySQL server with one table [t(id, val)], and a SQL
    Server that rejects the statement [sample_bad_statement]. *)

Definition sample_lower (c : ascii) : ascii :=
  let n := nat_of_ascii c in
  if (65 <=? n)%nat && (n <=? 90)%nat then ascii_of_nat (n + 32) else c.

Fixpoint sample_toLowerCase (s : string) : string :=
  match s with
  | EmptyString => EmptyString
  | String c rest => String (sample_lower c) (sample_toLowerCase rest)
  end.

Fixpoint sample_digits (s : string) (acc : option Z) : option Z :=
  match s with
  | EmptyString => acc
  | String c rest =>
      let n := nat_of_ascii c in
      if (48 <=? n)%nat && (n <=? 57)%nat
      then sample_digits rest
             (Some (default 0 acc * 10 + Z.of_nat (n - 48)))%Z
      else acc
  end.

Definition sample_parseInt (s : string) : value :=
  match sample_digits s None with
  | Some n => VNum n
  | None => VNaN
  end.

Definition sample_JSON_parse (s : string) : option value :=
  if String.eqb s "{}" then Some (VObj [])
  else if String.eqb s "null" then Some VNull
  else if String.eqb s "true" then Some (VBool true)
  else if String.eqb s "false" then Some (VBool false)
  else None.

Definition sample_columns : list row :=
  [ [("name", VStr "id"); ("type", VStr "integer");
     ("nullable", VStr "NO"); ("default_value", VNull)];
    [("name", VStr "val"); ("type", VStr "text");
     ("nullable", VStr "YES"); ("default_value", VNull)] ].

Definition sample_bad_statement : string := "SELECT * FROM missing".

Definition sample_rt : runtime :=
  {| JSON_parse := sample_JSON_parse;
     parseInt := sample_parseInt;
     toLowerCase := sample_toLowerCase;
     pg_new_Pool := λ _, None;
     mysql_createPool := λ _, None;
     pg_query := λ _ text _,
       if String.eqb text schema_query_postgres
       then Returns {| pg_rows := sample_columns; pg_rowCount := Some 2%Z |}
       else Returns {| pg_rows := []; pg_rowCount := Some 1%Z |};
     mysql_execute := λ _ text _,
       if String.eqb text schema_query_mysql
       then Returns (Rows sample_columns)
       else Returns Header;
     mssql_connect := λ _, None;
     mssql_query := λ _ text,
       if String.eqb text sample_bad_statement
       then Throws (JsError "RequestError" "Invalid object name 'missing'.")
       else Returns {| recordset := Rows []; rowsAffected := [0%Z] |};
     mssql_close := λ _, None |}.

Definition sample_env : gmap string string :=
  list_to_map
    [ ("DB_1_TYPE", "Postgres"); ("DB_1_ID", "main"); ("DB_1_PORT", "5432");
      ("DB_1_OPTIONS", "{not json");
      ("DB_2_TYPE", "mssql"); ("DB_2_HOST", "10.0.0.2");
      ("DB_3_TYPE", "oracle"); ("DB_3_ID", "legacy");
      ("DB_4_TYPE", "MariaDB"); ("DB_4_DATABASE", "shop");
      ("DB_6_TYPE", "mysql") ].

Section Gateway.

Context {rt : runtime}.

(** ** [parseEnvConfigs] *)

Definition env_key (index : nat) (field : string) : string :=
  "DB_" +:+ pretty index +:+ "_" +:+ field.

(** [config.options = v]. *)
Definition set_options (c : config) (v : value) : config :=
  {| id := id c; name := name c; type := type c; host := host c;
     port := port c; user := user c; password := password c;
     database := database c; options := v |}.

(** The descriptor that one turn of the loop pushes, for an index whose
    [TYPE] is [ty]. *)
Definition parse_group (env : gmap string string) (index : nat) (ty : string)
  : config :=
  let c :=
    {| id := str_or (env !! env_key index "ID") ("db_" +:+ pretty index);
       name := str_or (env !! env_key index "NAME") ("Database " +:+ pretty index);
       type := toLowerCase rt ty;
       host := opt_value (env !! env_key index "HOST");
       port := parseInt rt (str_or (env !! env_key index "PORT") "0");
       user := opt_value (env !! env_key index "USER");
       password := opt_value (env !! env_key index "PASSWORD");
       database := opt_value (env !! env_key index "DATABASE");
       options := VObj [] |} in
  let optionsStr := env !! env_key index "OPTIONS" in
  if str_truthy optionsStr then
    match JSON_parse rt (default EmptyString optionsStr) with
    | Some v => set_options c v
    | None => c                      (* Invalid JSON, skip options *)
    end
  else c.

(** The [while (true)] loop; [None] when [fuel] turns do not reach the
    [break]. *)
Fixpoint parse_loop (fuel : nat) (env : gmap string string) (index : nat)
    (configs : list config) : option (list config) :=
  match fuel with
  | O => None
  | S fuel' =>
      match env !! env_key index "TYPE" with
      | Some ty =>
          if String.eqb ty EmptyString then Some configs
          else parse_loop fuel' env (S index)
                 (configs ++ [parse_group env index ty])
      | None => Some configs
      end
  end.

(** The environment is finite, so one turn more than it has entries is
    always enough ([parse_loop_enough_fuel]). *)
Definition parseEnvConfigs (env : gmap string string) : list config :=
  default [] (parse_loop (S (size env)) env 1 []).

(** Index [index] has a [TYPE] the loop goes on with (set and not empty),
    and the descriptor the loop builds for such an index. *)
Definition type_present (env : gmap string string) (index : nat) : Prop :=
  str_truthy (env !! env_key index "TYPE") = true.

Definition descriptor_at (env : gmap string string) (index : nat) : config :=
  parse_group env index (default EmptyString (env !! env_key index "TYPE")).

(** ** [createConnection] *)

(** [config.options.encrypt]: reading a property of [null] or [undefined]
    throws; an array, a string, a number or a boolean has no such property. *)
Definition options_encrypt (opts : value) : M value :=
  match opts with
  | VObj props => mret (obj_get props "encrypt")
  | VNull =>
      throw (TypeError "Cannot read properties of null (reading 'encrypt')")
  | VUndefined =>
      throw (TypeError "Cannot read properties of undefined (reading 'encrypt')")
  | _ => mret VUndefined
  end.

Definition createConnection (c : config) : M handle :=
  if one_of (type c) ["postgres"; "postgresql"] then
    (* PostgreSQL connection pool *)
    let cfg :=
      spread [("host", host c); ("port", port c); ("user", user c);
              ("password", password c); ("database", database c)]
             (options c) in
    perform (NewPool cfg) (pg_new_Pool rt cfg);;
    mret (PgPool cfg false)
  else if one_of (type c) ["mysql"; "mariadb"] then
    (* MySQL/MariaDB connection pool *)
    let cfg :=
      spread [("host", host c); ("port", port c); ("user", user c);
              ("password", password c); ("database", database c);
              ("waitForConnections", VBool true);
              ("connectionLimit", VNum 10)]
             (options c) in
    perform (CreatePool cfg) (mysql_createPool rt cfg);;
    mret (MysqlPool cfg)
  else if one_of (type c) ["mssql"; "sqlserver"] then
    (* SQL Server connection config (lazy connection per query) *)
    encrypt ← options_encrypt (options c);
    mret (MssqlConfig
            [("server", host c); ("port", port c); ("user", user c);
             ("password", password c); ("database", database c);
             ("options",
              VObj (spread [("encrypt", VBool (negb (strict_eq_false encrypt)));
                            ("trustServerCertificate", VBool true)]
                           (options c)))])
  else
    throw (Error ("Unsupported database type: " +:+ type c)).

(** ** [reloadEnv], [initializeConnections], [closeConnection],
    [reloadConnections] *)

(** [dotenv.config({ path, override: true })]: every assignment of the
    [.env] file is written over [process.env]; an unreadable file is the
    empty list. *)
Definition reloadEnv (dotenv : list (string * string))
    (env : gmap string string) : gmap string string :=
  fold_left (λ e kv, <[kv.1 := kv.2]> e) dotenv env.

(** One turn of the [forEach]: the [try] stores a connected entry, the
    [catch] an entry with a null handle and the error's message. *)
Definition connect_one (acc : list call * registry) (c : config)
  : list call * registry :=
  match createConnection c with
  | (t, Returns h) =>
      (acc.1 ++ t,
       connections_set acc.2 (id c)
         {| descriptor := c; connection := Some h; status := connected;
            error := None |})
  | (t, Throws e) =>
      (acc.1 ++ t,
       connections_set acc.2 (id c)
         {| descriptor := c; connection := None; status := error_status;
            error := Some (err_message e) |})
  end.

(** [dbConfigs.forEach(...)]. *)
Definition connect_all (dbConfigs : list config) (reg : registry)
  : list call * registry :=
  fold_left connect_one dbConfigs ([], reg).

Definition initializeConnections (dotenv : list (string * string))
    (st : state) : list call * state :=
  let env := reloadEnv dotenv (process_env st) in
  let dbConfigs := parseEnvConfigs env in
  let r := connect_all dbConfigs (connections st) in
  (r.1, {| process_env := env; connections := r.2 |}).

(** The entry the [forEach] stores for a descriptor, read off the outcome of
    its own [createConnection]. *)
Definition stored_entry (c : config) : entry :=
  match result (createConnection c) with
  | Returns h =>
      {| descriptor := c; connection := Some h; status := connected;
         error := None |}
  | Throws e =>
      {| descriptor := c; connection := None; status := error_status;
         error := Some (err_message e) |}
  end.

(** The calls [closeConnection(db)] makes; whatever [end()] throws, and the
    TypeError of calling [end] on a handle that has none, is swallowed. *)
Definition closeConnection (db : entry) : list call :=
  match connection db with
  | None => []
  | Some h =>
      if one_of (type (descriptor db)) ["postgres"; "postgresql"]
         || one_of (type (descriptor db)) ["mysql"; "mariadb"]
      then match h with
           | PgPool cfg _ | MysqlPool cfg => [PoolEnd cfg]
           | MssqlConfig _ => []
           end
      else []
  end.

Definition reloadConnections (dotenv : list (string * string))
    (st : state) : list call * state :=
  (* Close all existing connections *)
  let closed := concat (map (λ kv, closeConnection kv.2) (connections st)) in
  (* Clear connections map, reload environment variables *)
  let env := reloadEnv dotenv (process_env st) in
  let r := initializeConnections dotenv
             {| process_env := env; connections := [] |} in
  (closed ++ r.1, r.2).

(** ** [getConnection], [getAllConnections] *)

(** [db.error || null]: the error message of an entry, as
    [getAllConnections] shows it. *)
Definition errorMessage (db : entry) : option string :=
  match error db with
  | Some msg => if String.eqb msg EmptyString then None else Some msg
  | None => None
  end.

(** [db.error || 'Unknown error']. *)
Definition error_or_unknown (db : entry) : string :=
  match error db with
  | Some msg => if String.eqb msg EmptyString then "Unknown error" else msg
  | None => "Unknown error"
  end.

(** The two failures of [getConnection], under the names the specification
    gives them; both are plain [Error]s, told apart by their message. *)
Definition NotFound (dbId : string) : js_error :=
  Error ("Database " +:+ dbId +:+ " not found").

Definition NotConnected (dbId msg : string) : js_error :=
  Error ("Database " +:+ dbId +:+ " is not connected: " +:+ msg).

Definition getConnection (reg : registry) (dbId : string) : outcome entry :=
  match connections_get reg dbId with
  | None => Throws (Error ("Database " +:+ dbId +:+ " not found"))
  | Some db =>
      match status db with
      | connected => Returns db
      | error_status =>
          Throws (Error ("Database " +:+ dbId +:+ " is not connected: "
                         +:+ error_or_unknown db))
      end
  end.

Definition getAllConnections (reg : registry) : list connection_info :=
  map (λ kv,
         let db := kv.2 in
         {| info_id := id (descriptor db);
            info_name := name (descriptor db);
            info_type := type (descriptor db);
            info_status := status db;
            info_error := errorMessage db |})
      reg.

Definition getConnectionCount (reg : registry) : nat := length reg.

(** ** [query] *)

Definition lift {A : Type} (o : outcome A) : M A := ([], o).

(** [error.message || error.toString() || 'Unknown error']. *)
Definition errorMsg (e : js_error) : string :=
  if negb (String.eqb (err_message e) EmptyString) then err_message e
  else if negb (String.eqb (error_toString e) EmptyString) then error_toString e
  else "Unknown error".

(** [n || m] on numbers. *)
Definition num_or (n : option Z) (m : Z) : Z :=
  match n with
  | Some k => if Z.eqb k 0 then m else k
  | None => m
  end.

(** An entry stored by [initializeConnections] pairs each type with the
    handle [createConnection] built for it ([stored_handle_matches]).  For
    any other pairing the driver method the code calls is not there, and
    the call throws. *)
Definition not_a_function (method : string) : js_error :=
  TypeError (method +:+ " is not a function").

Inductive switch_arm : Type :=
| case_postgres | case_mysql | case_mssql | case_default.

(** The [case] labels of the [switch (type)] in [query]. *)
Definition query_switch (ty : string) : switch_arm :=
  if one_of ty ["postgres"; "postgresql"] then case_postgres
  else if one_of ty ["mysql"; "mariadb"] then case_mysql
  else if one_of ty ["mssql"; "sqlserver"] then case_mssql
  else case_default.

Definition query_dispatch (db : entry) (sqlQuery : string)
    (params : list value) : M QueryResult :=
  let ty := type (descriptor db) in
  match query_switch ty with
  | case_postgres =>
    (* PostgreSQL uses $1, $2, etc. for parameters *)
    match connection db with
    | None => throw (Error "Database connection closed")
    | Some (PgPool cfg ended) =>
        if ended then throw (Error "Database connection closed")
        else
          pgResult ← request (PgQuery cfg sqlQuery params)
                             (pg_query rt cfg sqlQuery params);
          mret {| rows := Rows (pg_rows pgResult);
                  rowCount := Some (num_or (pg_rowCount pgResult)
                                      (Z.of_nat (length (pg_rows pgResult)))) |}
    | Some _ => throw (not_a_function "connection.query")
    end
  | case_mysql =>
    (* MySQL uses ? for parameters *)
    match connection db with
    | None =>
        throw (TypeError "Cannot read properties of null (reading 'execute')")
    | Some (MysqlPool cfg) =>
        rs ← request (MysqlExecute cfg sqlQuery params)
                     (mysql_execute rt cfg sqlQuery params);
        match rs with
        | Rows l => mret {| rows := rs; rowCount := Some (Z.of_nat (length l)) |}
        | Header => mret {| rows := rs; rowCount := None |}
        | NoRows =>
            throw (TypeError
                     "Cannot read properties of undefined (reading 'length')")
        end
    | Some _ => throw (not_a_function "connection.execute")
    end
  | case_mssql =>
    (* SQL Server creates connection per query *)
    match connection db with
    | None =>
        throw (TypeError "Cannot read properties of null (reading 'config')")
    | Some (MssqlConfig cfg) =>
        perform (MssqlConnect cfg) (mssql_connect rt cfg);;
        res ← request (MssqlQuery sqlQuery) (mssql_query rt cfg sqlQuery);
        perform MssqlClose (mssql_close rt cfg);;
        mret {| rows := recordset res;
                rowCount := Some (num_or (head (rowsAffected res)) 0) |}
    | Some _ => throw (not_a_function "sql.connect")
    end
  | case_default =>
    throw (Error ("Unsupported database type: " +:+ ty))
  end.

Definition query (reg : registry) (dbId sqlQuery : string)
    (params : list value) : M QueryResult :=
  db ← lift (getConnection reg dbId);
  try_catch (query_dispatch db sqlQuery params)
            (λ e, throw (Error ("Query failed: " +:+ errorMsg e))).

(** ** [getTableSchema] *)

(** [v || d]. *)
Definition value_or (v d : value) : value := if truthy v then v else d.

Definition getTableSchema (reg : registry) (dbId tableName : string)
    (schema : value) : M QueryResult :=
  db ← lift (getConnection reg dbId);
  let ty := type (descriptor db) in
  if one_of ty ["postgres"; "postgresql"] then
    query reg dbId schema_query_postgres
          [value_or schema (VStr "public"); VStr tableName]
  else if one_of ty ["mysql"; "mariadb"] then
    query reg dbId schema_query_mysql
          [database (descriptor db); VStr tableName]
  else if one_of ty ["mssql"; "sqlserver"] then
    query reg dbId schema_query_mssql
          [value_or schema (VStr "dbo"); VStr tableName]
  else
    throw (Error ("Unsupported database type: " +:+ ty)).

(** ** The routes of [routes/databases.js] *)


(** [try { ... res.json(body) } catch (error) { res.status(500)... }]. *)
Definition respond {A : Type} (m : M A) : list call * response A :=
  match m with
  | (t, Returns body) => (t, Json body)
  | (t, Throws e) => (t, Failure 500 (err_message e))
  end.

Definition is_postgres (ty : string) : bool :=
  String.eqb ty "postgres" || String.eqb ty "postgresql".

(** *** [GET /:dbId/tables/:tableName/data] *)

Definition tableRef_of (ty tableName : string) (schema : value) : string :=
  if truthy schema
     && (String.eqb ty "postgres" || String.eqb ty "postgresql"
         || String.eqb ty "mssql" || String.eqb ty "sqlserver")
  then to_String schema +:+ "." +:+ tableName
  else tableName.

(** Generate database-specific SQL query with pagination. *)
Definition finalQuery_of (ty tableRef : string) (limit offset : value)
  : string :=
  if String.eqb ty "mssql" || String.eqb ty "sqlserver" then
    "SELECT TOP " +:+ to_String limit +:+ " * FROM " +:+ tableRef
      +:+ " OFFSET " +:+ to_String offset +:+ " ROWS"
  else if String.eqb ty "mysql" || String.eqb ty "mariadb" then
    "SELECT * FROM " +:+ tableRef +:+ " LIMIT ? OFFSET ?"
  else if String.eqb ty "postgres" || String.eqb ty "postgresql" then
    "SELECT * FROM " +:+ tableRef +:+ " LIMIT $1 OFFSET $2"
  else
    "SELECT * FROM " +:+ tableRef +:+ " LIMIT ? OFFSET ?".

(** [result.rows || []] and [result.rowCount || result.rows?.length || 0]. *)
Definition rows_or_empty (rs : rowset) : rowset :=
  match rs with NoRows => Rows [] | _ => rs end.

Definition count_of (res : QueryResult) : Z :=
  num_or (rowCount res)
         (match rows res with
          | Rows l => Z.of_nat (length l)
          | _ => 0%Z
          end).

Definition get_table_data (reg : registry) (dbId tableName : string)
    (q_schema q_limit q_offset : option string)
  : list call * response data_body :=
  respond (
    let schema := value_or (opt_value q_schema) VNull in
    let limit := parseInt rt (str_or q_limit "1000") in
    let offset := parseInt rt (str_or q_offset "0") in
    db ← lift (getConnection reg dbId);
    let ty := type (descriptor db) in
    let tableRef := tableRef_of ty tableName schema in
    let params := [limit; offset] in
    let finalQuery := finalQuery_of ty tableRef limit offset in
    res ← query reg dbId finalQuery params;
    mret {| body_rows := rows_or_empty (rows res);
            body_count := count_of res |}).

(** *** [PUT /:dbId/tables/:tableName/row] *)

(** [Object.keys(data)], [Object.values(data)]. *)
Definition Object_keys (data : value) : M (list string) :=
  match data with
  | VUndefined | VNull =>
      throw (TypeError "Cannot convert undefined or null to object")
  | _ => mret (map fst (own_props data))
  end.

Definition Object_values (data : value) : M (list value) :=
  match data with
  | VUndefined | VNull =>
      throw (TypeError "Cannot convert undefined or null to object")
  | _ => mret (map snd (own_props data))
  end.

(** [columns.find(col => col.name === key)], as the [filter] uses it. *)
Definition column_known (columns : list row) (key : string) : bool :=
  existsb (λ col, strict_eq_str (obj_get col "name") key) columns.

(** [keys.filter(key => columns.find(...))] with [columns = schema.rows ||
    []]; a header object has no [find], which shows once a key is tried. *)
Definition filter_columns (schema_rows : rowset) (keys : list string)
  : M (list string) :=
  match schema_rows with
  | Rows columns => mret (List.filter (column_known columns) keys)
  | NoRows => mret (List.filter (column_known []) keys)
  | Header =>
      match keys with
      | [] => mret []
      | _ :: _ => throw (not_a_function "columns.find")
      end
  end.

Definition setClause_of (ty : string) (kept : list string) : string :=
  join ", "
       (imap (λ idx key,
                let param := if is_postgres ty
                             then "$" +:+ pretty (idx + 1)%nat
                             else "?" in
                key +:+ " = " +:+ param)
             kept).

Definition whereClause_of (ty : string) (primaryKey : value)
    (values : list value) : string :=
  if is_postgres ty
  then to_String primaryKey +:+ " = $" +:+ pretty (length values + 1)%nat
  else to_String primaryKey +:+ " = ?".

Definition put_row (reg : registry) (dbId tableName : string)
    (primaryKey primaryValue data : value)
  : list call * response success_body :=
  if negb (truthy primaryKey) || is_undefined primaryValue then
    ([], Failure 400 "Primary key and value required")
  else
    respond (
      db ← lift (getConnection reg dbId);
      schema ← getTableSchema reg dbId tableName VNull;
      keys ← Object_keys data;
      kept ← filter_columns (rows schema) keys;
      let setClause := setClause_of (type (descriptor db)) kept in
      values ← Object_values data;
      let whereClause :=
        whereClause_of (type (descriptor db)) primaryKey values in
      let sqlText := "UPDATE " +:+ tableName +:+ " SET " +:+ setClause
                       +:+ " WHERE " +:+ whereClause in
      let params := values ++ [primaryValue] in
      query reg dbId sqlText params;;
      mret {| success := true |}).

(** ** [getTables] *)

Definition getTables (reg : registry) (dbId : string) : M QueryResult :=
  db ← lift (getConnection reg dbId);
  let ty := type (descriptor db) in
  if one_of ty ["postgres"; "postgresql"] then
    (* PostgreSQL: query information_schema excluding system schemas *)
    try_catch (query reg dbId tables_query_postgres []) (λ e, throw e)
  else if one_of ty ["mysql"; "mariadb"] then
    (* MySQL: query information_schema for specific database *)
    query reg dbId tables_query_mysql [database (descriptor db)]
  else if one_of ty ["mssql"; "sqlserver"] then
    (* SQL Server: query information_schema for base tables *)
    try_catch (query reg dbId tables_query_mssql []) (λ e, throw e)
  else
    throw (Error ("Unsupported database type: " +:+ ty)).

(** ** The other routes of [routes/databases.js] *)

(** *** [POST /reload] and [GET /] *)

Record reload_body : Type := ReloadBody {
  reload_success : bool;
  reload_message : string;
  databases : list connection_info
}.

(** [reloadConnections] swallows or stores every error it meets, so the
    handler's [catch] is never entered. *)
Definition post_reload (dotenv : list (string * string)) (st : state)
  : list call * state * response reload_body :=
  let r := reloadConnections dotenv st in
  (r.1, r.2,
   Json {| reload_success := true;
           reload_message := "Databases reloaded successfully";
           databases := getAllConnections (connections r.2) |}).

Definition get_databases (reg : registry) : response (list connection_info) :=
  Json (getAllConnections reg).

(** *** [GET /:dbId/tables] and [GET /:dbId/tables/:tableName/schema] *)

Definition get_tables (reg : registry) (dbId : string)
  : list call * response rowset :=
  respond (
    res ← getTables reg dbId;
    mret (rows_or_empty (rows res))).

Definition get_table_schema (reg : registry) (dbId tableName : string)
    (q_schema : option string) : list call * response rowset :=
  respond (
    let schema := value_or (opt_value q_schema) VNull in
    res ← getTableSchema reg dbId tableName schema;
    mret (rows_or_empty (rows res))).

(** *** [POST /:dbId/tables/:tableName/row] *)

Definition insert_placeholders (ty : string) (values : list value) : string :=
  if is_postgres ty
  then join ", " (imap (λ i _, "$" +:+ pretty (i + 1)%nat) values)
  else join ", " (map (λ _, "?") values).

Definition post_row (reg : registry) (dbId tableName : string) (data : value)
  : list call * response success_body :=
  respond (
    db ← lift (getConnection reg dbId);
    columns ← Object_keys data;
    values ← Object_values data;
    let placeholders := insert_placeholders (type (descriptor db)) values in
    let sqlText := "INSERT INTO " +:+ tableName +:+ " ("
                     +:+ join ", " columns +:+ ") VALUES ("
                     +:+ placeholders +:+ ")" in
    query reg dbId sqlText values;;
    mret {| success := true |}).

(** *** [DELETE /:dbId/tables/:tableName/row] *)

Definition delete_row (reg : registry) (dbId tableName : string)
    (primaryKey primaryValue : value)
  : list call * response success_body :=
  if negb (truthy primaryKey) || is_undefined primaryValue then
    ([], Failure 400 "Primary key and value required")
  else
    respond (
      db ← lift (getConnection reg dbId);
      let placeholder := if is_postgres (type (descriptor db))
                         then "$1" else "?" in
      let sqlText := "DELETE FROM " +:+ tableName +:+ " WHERE "
                       +:+ to_String primaryKey +:+ " = " +:+ placeholder in
      query reg dbId sqlText [primaryValue];;
      mret {| success := true |}).

(** ** Registries the program can reach

    [new DBManager()] starts with an empty map; from there the registry
    only changes through [initializeConnections] and [reloadConnections],
    whatever the [.env] file holds at the time.  These are the registries
    between two complete operations.  While [reloadConnections] awaits the
    end of a pool the map still holds the old entries, status and all, and
    the pools ended so far are ended; what is said of [reachable] registries
    about ids, types and status holds there too, what needs a live pool
    takes the pool as a hypothesis of its own. *)

Inductive reachable : state → Prop :=
| reach_new env :
    reachable {| process_env := env; connections := [] |}
| reach_initialize dotenv st :
    reachable st → reachable (initializeConnections dotenv st).2
| reach_reload dotenv st :
    reachable st → reachable (reloadConnections dotenv st).2.

Definition recognized (ty : string) : Prop :=
  ty ∈ ["postgres"; "postgresql"; "mysql"; "mariadb"; "mssql"; "sqlserver"].

(** The handle the arm of [query] selected by a type expects to find. *)
Definition handle_fits (arm : switch_arm) (h : option handle) : Prop :=
  match arm, h with
  | case_postgres, Some (PgPool _ false) => True
  | case_mysql, Some (MysqlPool _) => True
  | case_mssql, Some (MssqlConfig _) => True
  | _, _ => False
  end.

(** What every stored entry satisfies: a connected one has a recognized
    type and the handle that goes with it. *)
Definition entry_ok (db : entry) : Prop :=
  status db = connected →
  recognized (type (descriptor db))
  ∧ handle_fits (query_switch (type (descriptor db))) (connection db).

End Gateway.

(** ** Authentication: [routes/auth.js] and [middleware/auth.js]

    [jsonwebtoken] is a parameter: [jwt_sign secret] is the token
    [jwt.sign({ authenticated: true }, secret, { expiresIn: '7d' })] returns,
    [jwt_verify token secret] tells whether [jwt.verify] calls back without
    an error.  [Date.now()] and the client address are inputs of the
    handler, [loginAttempts] is its state. *)

Record attempts : Type := Attempts { count : Z; resetTime : Z }.

Definition MAX_ATTEMPTS : Z := 5.
Definition WINDOW_MS : Z := 15 * 60 * 1000.

Definition default_secret : string := "your-secret-key-change-this".

Record token_body : Type := TokenBody { token : string }.

Record verify_body : Type := VerifyBody {
  authenticated : bool;
  verify_error : option string
}.

(** What the middleware does with a request: hand it on, or answer. *)
Inductive auth_outcome : Type :=
| Next
| Reject (code : nat) (message : string).

(** [s.split(' ')]. *)
Fixpoint split_space (s : string) : list string :=
  match s with
  | EmptyString => [EmptyString]
  | String c rest =>
      if Ascii.eqb c " "%char then EmptyString :: split_space rest
      else match split_space rest with
           | piece :: pieces => String c piece :: pieces
           | [] => [String c EmptyString]
           end
  end.

(** [authHeader && authHeader.split(' ')[1]]; [None] is [undefined]. *)
Definition bearer_token (authHeader : option string) : option string :=
  match authHeader with
  | None => None
  | Some h =>
      if String.eqb h EmptyString then Some EmptyString
      else split_space h !! 1%nat
  end.

(** [!JWT_SECRET || JWT_SECRET === 'your-secret-key-change-this']. *)
Definition secret_unusable (JWT_SECRET : option string) : bool :=
  negb (str_truthy JWT_SECRET)
  || String.eqb (default EmptyString JWT_SECRET) default_secret.

Section Auth.

Variable jwt_sign : string → string.
Variable jwt_verify : string → string → bool.

(** [router.post('/login')].  A stored record is only ever changed on the
    two paths that write the map afterwards, so copying it is faithful. *)
Definition login (loginAttempts : gmap string attempts)
    (env : gmap string string) (password : value)
    (ip remoteAddress : option string) (now : Z)
  : gmap string attempts * response token_body :=
  let PASSWORD := env !! "PASSWORD" in
  let JWT_SECRET := env !! "JWT_SECRET" in
  (* Security checks *)
  if negb (str_truthy PASSWORD) then
    (loginAttempts, Failure 500 "Server configuration error")
  else if secret_unusable JWT_SECRET then
    (loginAttempts, Failure 500 "Server configuration error")
  else
    (* Rate limiting: track login attempts by client IP address *)
    let clientIp := str_or ip (str_or remoteAddress "unknown") in
    let found :=
      default {| count := 0; resetTime := now + WINDOW_MS |}
              (loginAttempts !! clientIp) in
    let current :=
      if (resetTime found <? now)%Z
      then {| count := 0; resetTime := now + WINDOW_MS |}
      else found in
    if (MAX_ATTEMPTS <=? count current)%Z then
      (loginAttempts,
       Failure 429 "Too many login attempts. Please try again later.")
    else if negb (truthy password)
            || negb (strict_eq_str password (default EmptyString PASSWORD))
    then
      (<[clientIp := {| count := count current + 1;
                        resetTime := resetTime current |}]> loginAttempts,
       Failure 401 "Invalid password")
    else
      (* Successful login - reset rate limit counter *)
      (delete clientIp loginAttempts,
       Json {| token := jwt_sign (default EmptyString JWT_SECRET) |}).

(** [router.get('/verify')]: the status code and the body. *)
Definition verify (env : gmap string string) (authHeader : option string)
  : nat * verify_body :=
  let tok := bearer_token authHeader in
  if negb (str_truthy tok) then
    (200%nat, {| authenticated := false; verify_error := None |})
  else
    let JWT_SECRET := env !! "JWT_SECRET" in
    if secret_unusable JWT_SECRET then
      (500%nat, {| authenticated := false;
                   verify_error := Some "Server configuration error" |})
    else if jwt_verify (default EmptyString tok)
                       (default EmptyString JWT_SECRET)
    then (200%nat, {| authenticated := true; verify_error := None |})
    else (200%nat, {| authenticated := false; verify_error := None |}).

(** [authenticateToken], the guard of every [/api/databases] route. *)
Definition authenticateToken (env : gmap string string)
    (authHeader : option string) : auth_outcome :=
  let tok := bearer_token authHeader in
  if negb (str_truthy tok) then Reject 401 "Authentication required"
  else
    let JWT_SECRET := env !! "JWT_SECRET" in
    if secret_unusable JWT_SECRET then
      Reject 500 "Server configuration error"
    else if jwt_verify (default EmptyString tok)
                       (default EmptyString JWT_SECRET)
    then Next
    else Reject 403 "Invalid or expired token".

(** A run of login requests from one address, each with its password and
    its time; the answers come back in order. *)
Fixpoint login_run (loginAttempts : gmap string attempts)
    (env : gmap string string) (ip : string) (requests : list (value * Z))
  : gmap string attempts * list (response token_body) :=
  match requests with
  | [] => (loginAttempts, [])
  | (password, now) :: rest =>
      let r := login loginAttempts env password (Some ip) None now in
      let r' := login_run r.1 env ip rest in
      (r'.1, r.2 :: r'.2)
  end.

End Auth.

(** ** Vocabulary for the statements about driver calls *)

(** The calls that build or end a pool; the others open a SQL Server
    connection or send a statement. *)
Definition lifecycle_call (c : call) : bool :=
  match c with
  | NewPool _ | CreatePool _ | PoolEnd _ => true
  | _ => false
  end.

(** The calls that build a pool. *)
Definition builds_pool (c : call) : Prop :=
  match c with
  | NewPool _ | CreatePool _ => True
  | _ => False
  end.

(** The pool configurations a registry holds, in registry order. *)
Definition pools_of (reg : registry) : list obj :=
  omap (λ kv : string * entry,
          match connection kv.2 with
          | Some (PgPool cfg _) | Some (MysqlPool cfg) => Some cfg
          | _ => None
          end)
       reg.

(** What a [.env] file assigns: each key with the value of its last line. *)
Definition assignments (dotenv : list (string * string))
  : gmap string string :=
  list_to_map (reverse dotenv).

(** The descriptors of a list that carry the id [k]. *)
Definition with_id (k : string) (dbConfigs : list config) : list config :=
  List.filter (λ c, String.eqb (id c) k) dbConfigs.

(** No space occurs in [s]. *)
Fixpoint spaceless (s : string) : bool :=
  match s with
  | EmptyString => true
  | String c rest => negb (Ascii.eqb c " "%char) && spaceless rest
  end.

(** The address a login is counted under, and what makes the server
    refuse or accept a login. *)
Definition clientIp_of (ip remoteAddress : option string) : string :=
  str_or ip (str_or remoteAddress "unknown").

Definition configured (env : gmap string string) : Prop :=
  str_truthy (env !! "PASSWORD") = true
  ∧ secret_unusable (env !! "JWT_SECRET") = false.

Definition wrong_password (env : gmap string string) (password : value)
  : bool :=
  negb (truthy password)
  || negb (strict_eq_str password (default EmptyString (env !! "PASSWORD"))).

(** ** Sample inputs *)

Definition sample_sign (secret : string) : string := "signed." +:+ secret.

Definition sample_verify (tok secret : string) : bool :=
  String.eqb tok (sample_sign secret).

Definition sample_auth_env : gmap string string :=
  list_to_map [("PASSWORD", "hunter2"); ("JWT_SECRET", "s3cret")].

(** An mysql descriptor that sets its own pool size. *)
Definition sample_mysql_sized : config :=
  {| id := "shop"; name := "Shop"; type := "mysql";
     host := VStr "10.0.0.7"; port := VNum 3306; user := VStr "app";
     password := VStr "secret"; database := VStr "shop";
     options := VObj [("connectionLimit", VNum 2)] |}.


(** The registry [initializeConnections] builds from [sample_env]. *)
Definition sample_state : state :=
  (initializeConnections (rt := sample_rt) []
     {| process_env := sample_env; connections := [] |}).2.

(** An mssql descriptor whose options turn certificate trust off. *)
Definition sample_mssql_strict : config :=
  {| id := "erp"; name := "ERP"; type := "mssql";
     host := VStr "10.0.0.9"; port := VNum 1433; user := VStr "sa";
     password := VStr "secret"; database := VStr "erp";
     options := VObj [("trustServerCertificate", VBool false)] |}.

(** * Properties *)

Section Properties.

Context {rt : runtime}.

Open Scope nat_scope.

(** Membership in a list of [case] labels, one label at a time. *)
Ltac recognized_from H :=
  repeat (apply elem_of_cons in H as [->|H];
          [apply list_elem_of_In; simpl; tauto|]);
  by apply elem_of_nil in H.


(** ** The config parser *)

Lemma length_append (s t : string) :
  String.length (s +:+ t) = String.length s + String.length t.
Proof. induction s as [|c s IH]; simpl; [done | by rewrite IH]. Qed.

Lemma append_cancel_r (s1 s2 t : string) : s1 +:+ t = s2 +:+ t → s1 = s2.
Proof.
  revert s2; induction s1 as [|c s1 IH]; intros [|d s2] H.
  - reflexivity.
  - apply (f_equal String.length) in H.
    rewrite !length_append in H. simpl in H. lia.
  - apply (f_equal String.length) in H.
    rewrite !length_append in H. simpl in H. lia.
  - change (String c (s1 +:+ t) = String d (s2 +:+ t)) in H.
    injection H as -> H. f_equal. by apply IH.
Qed.

Lemma env_key_inj (field : string) (i j : nat) :
  env_key i field = env_key j field → i = j.
Proof.
  unfold env_key. intros H.
  apply (inj (String.app "DB_")) in H.
  apply append_cancel_r in H.
  by apply (inj pretty) in H.
Qed.

Lemma type_present_is_Some (env : gmap string string) (i : nat) :
  type_present env i → is_Some (env !! env_key i "TYPE").
Proof.
  unfold type_present. destruct (env !! env_key i "TYPE"); [eauto | done].
Qed.

(** A finite environment holds at most [size env] groups in a row. *)
Lemma present_run_bounded (env : gmap string string) (n : nat) :
  (∀ i, 1 ≤ i < n → type_present env i) → n - 1 ≤ size env.
Proof.
  intros Hall.
  set (keys := (λ i, env_key i "TYPE") <$> seq 1 (n - 1)).
  assert (Hnd : NoDup keys).
  { apply NoDup_fmap_2; [|apply NoDup_seq].
    intros i j. apply env_key_inj. }
  assert (Hsub : (list_to_set keys : gset string) ⊆ dom env).
  { intros k Hk. apply elem_of_list_to_set, list_elem_of_fmap in Hk.
    destruct Hk as (i & -> & Hi). apply elem_of_seq in Hi.
    apply elem_of_dom, type_present_is_Some, Hall. lia. }
  apply subseteq_size in Hsub.
  rewrite size_list_to_set, size_dom in Hsub by done.
  unfold keys in Hsub. by rewrite length_fmap, length_seq in Hsub.
Qed.

Lemma parse_loop_present (fuel : nat) (env : gmap string string)
    (index : nat) (configs : list config) :
  type_present env index →
  parse_loop (S fuel) env index configs
  = parse_loop fuel env (S index) (configs ++ [descriptor_at env index]).
Proof.
  unfold type_present, descriptor_at. simpl.
  destruct (env !! env_key index "TYPE") as [ty|]; simpl; [|done].
  by destruct (String.eqb ty EmptyString).
Qed.

Lemma parse_loop_absent (fuel : nat) (env : gmap string string)
    (index : nat) (configs : list config) :
  ¬ type_present env index →
  parse_loop (S fuel) env index configs = Some configs.
Proof.
  unfold type_present. simpl.
  destruct (env !! env_key index "TYPE") as [ty|]; simpl; [|done].
  by destruct (String.eqb ty EmptyString).
Qed.

(** With fuel to spare the loop pushes the groups [index .. n-1] and breaks
    at [n]. *)
Lemma parse_loop_run (env : gmap string string) (n fuel index : nat)
    (configs : list config) :
  index ≤ n →
  (∀ i, index ≤ i < n → type_present env i) →
  ¬ type_present env n →
  n - index < fuel →
  parse_loop fuel env index configs
  = Some (configs ++ (descriptor_at env <$> seq index (n - index))).
Proof.
  revert index configs.
  induction fuel as [|fuel IH]; intros index configs Hle Hall Hgap Hfuel.
  { lia. }
  destruct (decide (index = n)) as [->|Hne].
  - rewrite parse_loop_absent by done.
    replace (n - n) with 0 by lia. simpl. by rewrite app_nil_r.
  - rewrite parse_loop_present by (apply Hall; lia).
    rewrite IH; [|lia|intros; apply Hall; lia|done|lia].
    replace (n - index) with (S (n - S index)) by lia.
    simpl. by rewrite <- app_assoc.
Qed.

(** The loop always reaches its [break]: some index has no usable [TYPE]. *)
Lemma first_gap_exists (env : gmap string string) :
  ∃ n, 1 ≤ n ≤ S (size env)
       ∧ (∀ i, 1 ≤ i < n → type_present env i) ∧ ¬ type_present env n.
Proof.
  assert (Hsearch : ∀ k m, m + k = S (S (size env)) → 1 ≤ m →
            (∀ i, 1 ≤ i < m → type_present env i) →
            ∃ n, 1 ≤ n ≤ S (size env)
              ∧ (∀ i, 1 ≤ i < n → type_present env i) ∧ ¬ type_present env n).
  { induction k as [|k IH]; intros m Hm H1 Hall.
    - apply present_run_bounded in Hall. lia.
    - destruct (decide (str_truthy (env !! env_key m "TYPE") = true))
        as [Hp|Hp].
      + apply (IH (S m)); [lia|lia|].
        intros i Hi. destruct (decide (i = m)) as [->|]; [done|].
        apply Hall. lia.
      + exists m. split; [|done]. split; [done|].
        pose proof (present_run_bounded env m Hall). lia. }
  apply (Hsearch (S (size env)) 1); [lia|lia|]. intros i Hi. lia.
Qed.

Lemma parse_loop_enough_fuel (env : gmap string string) :
  is_Some (parse_loop (S (size env)) env 1 []).
Proof.
  destruct (first_gap_exists env) as (n & Hn & Hall & Hgap).
  rewrite (parse_loop_run env n) by (done || lia). eauto.
Qed.

Lemma parseEnvConfigs_run (env : gmap string string) (n : nat) :
  1 ≤ n →
  (∀ i, 1 ≤ i < n → type_present env i) →
  ¬ type_present env n →
  parseEnvConfigs env = descriptor_at env <$> seq 1 (n - 1).
Proof.
  intros Hn Hall Hgap. unfold parseEnvConfigs.
  pose proof (present_run_bounded env n Hall).
  by rewrite (parse_loop_run env n) by (done || lia).
Qed.

Lemma descriptor_at_malformed_options (env : gmap string string) (i : nat)
    (s : string) :
  env !! env_key i "OPTIONS" = Some s →
  JSON_parse rt s = None →
  options (descriptor_at env i) = VObj [].
Proof.
  intros Hs Hbad. unfold descriptor_at, parse_group. rewrite Hs. simpl.
  destruct (negb (String.eqb s EmptyString)); [|done].
  by rewrite Hbad.
Qed.

(** C8. The parser builds one descriptor for each of the indices 1, 2, ...
    up to the first index [n] whose TYPE is absent (unset, or set to the
    empty string, which the loop's test treats alike), in index order, and
    nothing for [n] or any later index whatever the environment holds
    there; a group whose OPTIONS text does not parse still yields its
    descriptor, with empty options. *)
Theorem parseEnvConfigs_stops_at_first_gap (env : gmap string string)
    (n : nat) :
  1 ≤ n →
  (∀ i, 1 ≤ i < n → type_present env i) →
  ¬ type_present env n →
  parseEnvConfigs env = descriptor_at env <$> seq 1 (n - 1)
  ∧ length (parseEnvConfigs env) = n - 1
  ∧ ∀ i s, 1 ≤ i < n →
      env !! env_key i "OPTIONS" = Some s →
      JSON_parse rt s = None →
      ∃ c, parseEnvConfigs env !! (i - 1) = Some c
           ∧ c = descriptor_at env i ∧ options c = VObj [].
Proof.
  intros Hn Hall Hgap.
  pose proof (parseEnvConfigs_run env n Hn Hall Hgap) as Heq.
  split; [done|]. split.
  { by rewrite Heq, length_fmap, length_seq. }
  intros i s Hi Hs Hbad. exists (descriptor_at env i).
  split; [|split; [done|by eapply descriptor_at_malformed_options]].
  rewrite Heq, list_lookup_fmap, lookup_seq_lt by lia. simpl.
  f_equal. f_equal. lia.
Qed.

(** ** The registry as a map *)

Lemma connections_get_set_eq (reg : registry) (k : string) (e : entry) :
  connections_get (connections_set reg k e) k = Some e.
Proof.
  induction reg as [|[k' e'] reg IH]; simpl.
  - by rewrite String.eqb_refl.
  - destruct (String.eqb k' k) eqn:Hk; simpl; by rewrite Hk.
Qed.

Lemma connections_get_set_ne (reg : registry) (k k' : string) (e : entry) :
  k ≠ k' →
  connections_get (connections_set reg k e) k' = connections_get reg k'.
Proof.
  intros Hne. induction reg as [|[k0 e0] reg IH]; simpl.
  - destruct (String.eqb k k') eqn:Hk; [|done].
    apply String.eqb_eq in Hk. done.
  - destruct (String.eqb k0 k) eqn:Hk; simpl.
    + apply String.eqb_eq in Hk as ->.
      destruct (String.eqb k k') eqn:Hk'; [|done].
      apply String.eqb_eq in Hk'. done.
    + by rewrite IH.
Qed.

Lemma connections_set_fresh (reg : registry) (k : string) (e : entry) :
  connections_get reg k = None → connections_set reg k e = reg ++ [(k, e)].
Proof.
  induction reg as [|[k' e'] reg IH]; simpl; [done|].
  destruct (String.eqb k' k); [done|]. intros H. by rewrite IH.
Qed.

Lemma connections_get_app_None (reg1 reg2 : registry) (k : string) :
  connections_get reg1 k = None →
  connections_get (reg1 ++ reg2) k = connections_get reg2 k.
Proof.
  induction reg1 as [|[k' e'] reg1 IH]; simpl; [done|].
  by destruct (String.eqb k' k).
Qed.

Lemma connections_get_elem (reg : registry) (k : string) (db : entry) :
  connections_get reg k = Some db → (k, db) ∈ reg.
Proof.
  induction reg as [|[k' e'] reg IH]; simpl; [done|].
  destruct (String.eqb k' k) eqn:Hk.
  - apply String.eqb_eq in Hk as ->. intros [= ->]. apply list_elem_of_here.
  - intros H. apply list_elem_of_further. by apply IH.
Qed.

Lemma connections_set_Forall (P : entry → Prop) (reg : registry)
    (k : string) (e : entry) :
  Forall (λ kv, P kv.2) reg → P e →
  Forall (λ kv, P kv.2) (connections_set reg k e).
Proof.
  intros Hreg He. induction Hreg as [|[k' e'] reg Hx Hreg IH]; simpl.
  - by constructor.
  - destruct (String.eqb k' k); constructor; done.
Qed.

(** ** [getConnection] *)

Lemma error_or_unknown_stored (db : entry) (msg : string) :
  errorMessage db = Some msg → error_or_unknown db = msg.
Proof.
  unfold errorMessage, error_or_unknown.
  destruct (error db) as [m|]; [|done].
  destruct (String.eqb m EmptyString); [done|]. by intros [= ->].
Qed.

Lemma error_or_unknown_missing (db : entry) :
  errorMessage db = None → error_or_unknown db = "Unknown error".
Proof.
  unfold errorMessage, error_or_unknown.
  destruct (error db) as [m|]; [|done].
  by destruct (String.eqb m EmptyString).
Qed.

(** C7. [getConnection] fails with NotFound when the registry has no entry
    under the id; when the entry there has status error it fails with
    NotConnected, carrying the entry's error message (the text
    'Unknown error' when the entry has none); otherwise it returns the
    entry. *)
Theorem getConnection_outcomes (reg : registry) (dbId : string) :
  (connections_get reg dbId = None →
   getConnection reg dbId = Throws (NotFound dbId))
  ∧ (∀ db, connections_get reg dbId = Some db → status db = error_status →
       (∀ msg, errorMessage db = Some msg →
               getConnection reg dbId = Throws (NotConnected dbId msg))
       ∧ (errorMessage db = None →
          getConnection reg dbId
          = Throws (NotConnected dbId "Unknown error")))
  ∧ (∀ db, connections_get reg dbId = Some db → status db = connected →
       getConnection reg dbId = Returns db).
Proof.
  unfold getConnection, NotFound, NotConnected. split; [|split].
  - by intros ->.
  - intros db -> ->. split.
    + intros msg Hmsg. by rewrite (error_or_unknown_stored db msg).
    + intros Hnone. by rewrite error_or_unknown_missing.
  - by intros db -> ->.
Qed.

Lemma getConnection_Returns (reg : registry) (dbId : string) (db : entry) :
  getConnection reg dbId = Returns db →
  connections_get reg dbId = Some db ∧ status db = connected.
Proof.
  unfold getConnection.
  destruct (connections_get reg dbId) as [db'|]; [|done].
  destruct (status db') eqn:Hst; [|done]. by intros [= ->].
Qed.

(** ** [initializeConnections] *)

Lemma connect_one_registry (acc : list call * registry) (c : config) :
  (connect_one acc c).2 = connections_set acc.2 (id c) (stored_entry c).
Proof.
  unfold connect_one, stored_entry, result.
  by destruct (createConnection c) as [t [h|e]].
Qed.

Lemma connect_one_eta (acc : list call * registry) (c : config) :
  connect_one acc c = ((connect_one acc c).1, (connect_one acc c).2).
Proof. by destruct (connect_one acc c). Qed.

(** Descriptors with fresh, pairwise different ids are appended in order,
    each with the entry its own [createConnection] decides. *)
Lemma connect_all_fresh (dbConfigs : list config) (t : list call)
    (reg : registry) :
  NoDup (id <$> dbConfigs) →
  (∀ c, c ∈ dbConfigs → connections_get reg (id c) = None) →
  (fold_left connect_one dbConfigs (t, reg)).2
  = reg ++ ((λ c, (id c, stored_entry c)) <$> dbConfigs).
Proof.
  revert t reg. induction dbConfigs as [|c rest IH]; intros t reg Hnd Hfresh.
  { simpl. by rewrite app_nil_r. }
  simpl in *. apply NoDup_cons in Hnd as [Hc Hnd].
  rewrite connect_one_eta, connect_one_registry. simpl.
  rewrite connections_set_fresh by (apply Hfresh, list_elem_of_here).
  rewrite IH; [by rewrite <- app_assoc | done |].
  intros c' Hc'.
  rewrite connections_get_app_None by (by apply Hfresh, list_elem_of_further).
  simpl. destruct (String.eqb (id c) (id c')) eqn:Heq; [|done].
  apply String.eqb_eq in Heq. exfalso. apply Hc. rewrite Heq.
  by apply list_elem_of_fmap_2.
Qed.

Lemma connections_get_stored (dbConfigs : list config) (c : config) :
  NoDup (id <$> dbConfigs) → c ∈ dbConfigs →
  connections_get ((λ c, (id c, stored_entry c)) <$> dbConfigs) (id c)
  = Some (stored_entry c).
Proof.
  induction dbConfigs as [|c0 rest IH]; intros Hnd Hc.
  { by apply elem_of_nil in Hc. }
  simpl in *. apply NoDup_cons in Hnd as [Hc0 Hnd].
  apply elem_of_cons in Hc as [->|Hc].
  - by rewrite String.eqb_refl.
  - destruct (String.eqb (id c0) (id c)) eqn:Heq; [|by apply IH].
    apply String.eqb_eq in Heq. exfalso. apply Hc0. rewrite Heq.
    by apply list_elem_of_fmap_2.
Qed.

(** C5. Started on an empty registry with descriptors of pairwise different
    ids (a valid descriptor list), [initializeConnections] leaves exactly one
    entry per descriptor, in descriptor order, so the entry count is the
    descriptor count however many connection creations fail; the entry of a
    descriptor is decided by its own [createConnection] alone: connected
    with the handle when it returns, status error with a null handle and the
    error's message when it throws. *)
Theorem initialize_one_entry_per_descriptor (dotenv : list (string * string))
    (st : state) (dbConfigs : list config) :
  connections st = [] →
  parseEnvConfigs (reloadEnv dotenv (process_env st)) = dbConfigs →
  NoDup (id <$> dbConfigs) →
  let reg := connections (initializeConnections dotenv st).2 in
  getConnectionCount reg = length dbConfigs
  ∧ reg.*1 = id <$> dbConfigs
  ∧ ∀ c, c ∈ dbConfigs →
      ∃ db, connections_get reg (id c) = Some db
        ∧ descriptor db = c
        ∧ match result (createConnection c) with
          | Returns h =>
              status db = connected ∧ connection db = Some h
          | Throws e =>
              status db = error_status ∧ connection db = None
              ∧ error db = Some (err_message e)
          end.
Proof.
  intros Hempty Hparse Hnd reg.
  assert (Hreg : reg = (λ c, (id c, stored_entry c)) <$> dbConfigs).
  { unfold reg, initializeConnections, connect_all. simpl.
    rewrite Hparse, Hempty. by rewrite connect_all_fresh. }
  rewrite Hreg. split; [|split].
  - unfold getConnectionCount. by rewrite length_fmap.
  - rewrite <- list_fmap_compose. by apply list_fmap_ext.
  - intros c Hc. exists (stored_entry c).
    split; [by apply connections_get_stored|].
    unfold stored_entry. by destruct (result (createConnection c)).
Qed.

(** ** The invariant of the registry *)

Lemma one_of_elem (s : string) (labels : list string) :
  one_of s labels = true → s ∈ labels.
Proof.
  unfold one_of. intros H. apply existsb_exists in H as (l & Hin & Heq).
  apply String.eqb_eq in Heq as ->. by apply list_elem_of_In.
Qed.

Lemma createConnection_Returns (c : config) (h : handle) :
  result (createConnection c) = Returns h →
  recognized (type c) ∧ handle_fits (query_switch (type c)) (Some h).
Proof.
  unfold createConnection, query_switch, recognized.
  destruct (one_of (type c) ["postgres"; "postgresql"]) eqn:Hpg.
  { apply one_of_elem in Hpg. intros H. split; [recognized_from Hpg|].
    revert H. unfold perform. destruct (pg_new_Pool rt _); [done|].
    by intros [= <-]. }
  destruct (one_of (type c) ["mysql"; "mariadb"]) eqn:Hmy.
  { apply one_of_elem in Hmy. intros H. split; [recognized_from Hmy|].
    revert H. unfold perform. destruct (mysql_createPool rt _); [done|].
    by intros [= <-]. }
  destruct (one_of (type c) ["mssql"; "sqlserver"]) eqn:Hms.
  { apply one_of_elem in Hms. intros H. split; [recognized_from Hms|].
    revert H. unfold options_encrypt.
    destruct (options c); try done; by intros [= <-]. }
  done.
Qed.

Lemma stored_entry_ok (c : config) : entry_ok (stored_entry c).
Proof.
  unfold entry_ok, stored_entry.
  destruct (result (createConnection c)) as [h|e] eqn:Hres; simpl; [|done].
  intros _. by apply createConnection_Returns.
Qed.

Lemma connect_all_ok (dbConfigs : list config) (t : list call)
    (reg : registry) :
  Forall (λ kv, entry_ok kv.2) reg →
  Forall (λ kv, entry_ok kv.2) (fold_left connect_one dbConfigs (t, reg)).2.
Proof.
  revert t reg. induction dbConfigs as [|c rest IH]; intros t reg Hreg.
  { done. }
  simpl. rewrite connect_one_eta. apply IH.
  rewrite connect_one_registry.
  apply connections_set_Forall; [done | apply stored_entry_ok].
Qed.

Lemma reachable_ok (st : state) :
  reachable st → Forall (λ kv, entry_ok kv.2) (connections st).
Proof.
  induction 1 as [env | dotenv st _ IH | dotenv st _ _]; simpl.
  - constructor.
  - by apply connect_all_ok.
  - apply connect_all_ok. constructor.
Qed.

(** A stored connected entry carries the handle its arm of [query] uses. *)
Lemma stored_handle_matches (st : state) (dbId : string) (db : entry) :
  reachable st → getConnection (connections st) dbId = Returns db →
  handle_fits (query_switch (type (descriptor db))) (connection db).
Proof.
  intros Hreach Hget. apply getConnection_Returns in Hget as [Hget Hst].
  apply connections_get_elem in Hget.
  pose proof (reachable_ok st Hreach) as Hok.
  rewrite Forall_forall in Hok. by apply (Hok _ Hget).
Qed.

Lemma recognized_not_default (ty : string) :
  recognized ty → query_switch ty ≠ case_default.
Proof.
  unfold recognized. intros H.
  repeat (apply elem_of_cons in H as [->|H]; [by vm_compute|]).
  by apply elem_of_nil in H.
Qed.

(** C10. In every registry that [initializeConnections] and
    [reloadConnections] can produce, an entry whose status is connected has
    one of the six recognized types; so for an entry that [getConnection]
    returns, the [switch] of [query] never selects its default arm, the one
    that throws 'Unsupported database type'. *)
Theorem connected_entries_recognized (st : state) :
  reachable st →
  (∀ k db, (k, db) ∈ connections st → status db = connected →
           recognized (type (descriptor db)))
  ∧ (∀ dbId db, getConnection (connections st) dbId = Returns db →
       query_switch (type (descriptor db)) ≠ case_default).
Proof.
  intros Hreach. pose proof (reachable_ok st Hreach) as Hok.
  rewrite Forall_forall in Hok.
  assert (Hrec : ∀ k db, (k, db) ∈ connections st → status db = connected →
                         recognized (type (descriptor db))).
  { intros k db Hin Hst. by apply (Hok _ Hin). }
  split; [done|].
  intros dbId db Hget. apply getConnection_Returns in Hget as [Hget Hst].
  apply recognized_not_default. apply (Hrec dbId); [|done].
  by apply connections_get_elem.
Qed.

(** ** [reloadConnections] *)

Lemma reloadEnv_union (dotenv : list (string * string))
    (env : gmap string string) :
  reloadEnv dotenv env = list_to_map (reverse dotenv) ∪ env.
Proof.
  unfold reloadEnv. revert env.
  induction dotenv as [|[k v] rest IH]; intros env; simpl.
  - by rewrite (left_id_L ∅ (∪)).
  - rewrite IH, reverse_cons, list_to_map_app. simpl.
    rewrite insert_empty, <- (assoc_L (∪)).
    by rewrite <- insert_union_singleton_l.
Qed.

(** Reading the same [.env] file again changes nothing. *)
Lemma reloadEnv_idemp (dotenv : list (string * string))
    (env : gmap string string) :
  reloadEnv dotenv (reloadEnv dotenv env) = reloadEnv dotenv env.
Proof.
  rewrite !reloadEnv_union, (assoc_L (∪)). by rewrite (idemp_L (∪)).
Qed.

(** The state after a reload depends on the old state through its
    environment only. *)
Lemma reloadConnections_state (dotenv : list (string * string)) (st : state) :
  (reloadConnections dotenv st).2
  = {| process_env := reloadEnv dotenv (process_env st);
       connections :=
         (connect_all (parseEnvConfigs (reloadEnv dotenv (process_env st)))
                      []).2 |}.
Proof.
  unfold reloadConnections, initializeConnections. simpl.
  by rewrite !reloadEnv_idemp.
Qed.

Lemma reloadConnections_fixpoint (dotenv : list (string * string))
    (st : state) :
  (reloadConnections dotenv (reloadConnections dotenv st).2).2
  = (reloadConnections dotenv st).2.
Proof.
  rewrite (reloadConnections_state dotenv (reloadConnections dotenv st).2).
  rewrite (reloadConnections_state dotenv st). simpl.
  by rewrite !reloadEnv_idemp.
Qed.

(** C6. Two reloads in a row over the same [.env] file give the same
    [getAllConnections] list, entry for entry and in the same order; in
    particular the sequence of (id, name, type, status) is the same. *)
Theorem reload_twice_same_list (dotenv : list (string * string)) (st : state) :
  let st1 := (reloadConnections dotenv st).2 in
  let st2 := (reloadConnections dotenv st1).2 in
  getAllConnections (connections st2) = getAllConnections (connections st1)
  ∧ (λ i, (info_id i, info_name i, info_type i, info_status i))
      <$> getAllConnections (connections st2)
    = (λ i, (info_id i, info_name i, info_type i, info_status i))
      <$> getAllConnections (connections st1).
Proof.
  intros st1 st2. unfold st2, st1.
  by rewrite reloadConnections_fixpoint.
Qed.

(** ** [createConnection] for SQL Server *)

Lemma obj_get_set_eq (o : obj) (k : string) (v : value) :
  obj_get (obj_set o k v) k = v.
Proof.
  induction o as [|[k' v'] o IH]; simpl.
  - by rewrite String.eqb_refl.
  - destruct (String.eqb k' k) eqn:Hk; simpl; by rewrite Hk.
Qed.

Lemma obj_get_set_ne (o : obj) (k k' : string) (v : value) :
  k ≠ k' → obj_get (obj_set o k v) k' = obj_get o k'.
Proof.
  intros Hne. induction o as [|[k0 v0] o IH]; simpl.
  - destruct (String.eqb k k') eqn:Hk; [|done].
    apply String.eqb_eq in Hk. done.
  - destruct (String.eqb k0 k) eqn:Hk; simpl.
    + apply String.eqb_eq in Hk as ->.
      destruct (String.eqb k k') eqn:Hk'; [|done].
      apply String.eqb_eq in Hk'. done.
    + by rewrite IH.
Qed.

Lemma obj_has_false (props : obj) (k : string) :
  obj_has props k = false → k ∉ props.*1.
Proof.
  induction props as [|[k' v'] props IH]; simpl.
  - intros _. apply not_elem_of_nil.
  - intros H. apply orb_false_iff in H as [Hk H].
    apply not_elem_of_cons. split; [|by apply IH].
    intros ->. by rewrite String.eqb_refl in Hk.
Qed.

(** A key the spread object does not have keeps the target's value. *)
Lemma spread_props_other (props target : obj) (k : string) :
  k ∉ props.*1 →
  obj_get (fold_left (λ acc kv, obj_set acc kv.1 kv.2) props target) k
  = obj_get target k.
Proof.
  revert target. induction props as [|[k' v'] props IH]; intros target Hk.
  { done. }
  simpl in *. apply not_elem_of_cons in Hk as [Hne Hk].
  rewrite IH by done. by apply obj_get_set_ne.
Qed.

(** A key the spread object has takes its value from there. *)
Lemma spread_props_given (props target : obj) (k : string) (v : value) :
  NoDup props.*1 → (k, v) ∈ props →
  obj_get (fold_left (λ acc kv, obj_set acc kv.1 kv.2) props target) k = v.
Proof.
  revert target. induction props as [|[k' v'] props IH]; intros target Hnd Hin.
  { by apply elem_of_nil in Hin. }
  simpl in *. apply NoDup_cons in Hnd as [Hk' Hnd].
  apply elem_of_cons in Hin as [[= -> ->]|Hin].
  - rewrite spread_props_other by done. apply obj_get_set_eq.
  - by apply IH.
Qed.

Lemma mssql_label_selects (ty : string) :
  one_of ty ["mssql"; "sqlserver"] = true →
  one_of ty ["postgres"; "postgresql"] = false
  ∧ one_of ty ["mysql"; "mariadb"] = false.
Proof.
  intros H. apply one_of_elem in H.
  repeat (apply elem_of_cons in H as [->|H]; [by vm_compute|]).
  by apply elem_of_nil in H.
Qed.

(** C4, as the code has it. For an mssql (or sqlserver) descriptor whose
    options are an object, [createConnection] calls no driver and returns a
    config object; in its options [encrypt] and [trustServerCertificate] are
    true when the descriptor's options do not mention them, and every
    property the descriptor's options do give, these two included, is
    passed through with the given value. *)
Theorem createConnection_mssql_config (c : config) (props : obj) :
  one_of (type c) ["mssql"; "sqlserver"] = true →
  options c = VObj props →
  NoDup props.*1 →
  ∃ cfg o,
    createConnection c = ([], Returns (MssqlConfig cfg))
    ∧ obj_get cfg "options" = VObj o
    ∧ (obj_has props "encrypt" = false → obj_get o "encrypt" = VBool true)
    ∧ (obj_has props "trustServerCertificate" = false →
       obj_get o "trustServerCertificate" = VBool true)
    ∧ (∀ k v, (k, v) ∈ props → obj_get o k = v).
Proof.
  intros Hty Hopts Hnd.
  destruct (mssql_label_selects _ Hty) as [Hpg Hmy].
  unfold createConnection. rewrite Hpg, Hmy, Hty, Hopts. simpl.
  eexists _, _. split; [reflexivity|]. split; [reflexivity|].
  unfold spread. simpl own_props. split; [|split].
  - intros Hno. rewrite spread_props_other by (by apply obj_has_false).
    simpl. f_equal.
    assert (Hget : obj_get props "encrypt" = VUndefined).
    { clear -Hno. induction props as [|[k v] props IH]; simpl in *; [done|].
      apply orb_false_iff in Hno as [-> Hno]. by apply IH. }
    by rewrite Hget.
  - intros Hno. by rewrite spread_props_other by (by apply obj_has_false).
  - intros k v Hin. by apply spread_props_given.
Qed.

(** ** [getTableSchema] *)

Lemma postgres_label_selects (ty : string) :
  ty ∈ ["postgres"; "postgresql"] →
  one_of ty ["postgres"; "postgresql"] = true.
Proof.
  intros H. repeat (apply elem_of_cons in H as [->|H]; [by vm_compute|]).
  by apply elem_of_nil in H.
Qed.

Lemma mysql_label_selects (ty : string) :
  ty ∈ ["mysql"; "mariadb"] →
  one_of ty ["postgres"; "postgresql"] = false
  ∧ one_of ty ["mysql"; "mariadb"] = true.
Proof.
  intros H. repeat (apply elem_of_cons in H as [->|H]; [by vm_compute|]).
  by apply elem_of_nil in H.
Qed.

Lemma mssql_label_elem (ty : string) :
  ty ∈ ["mssql"; "sqlserver"] → one_of ty ["mssql"; "sqlserver"] = true.
Proof.
  intros H. repeat (apply elem_of_cons in H as [->|H]; [by vm_compute|]).
  by apply elem_of_nil in H.
Qed.

(** What [getTableSchema] hands the executor.  With no schema given (null,
    or any other falsy argument) it is the postgres column-catalog query
    with 'public' as its schema parameter, and the mssql one with 'dbo'; for
    mysql it is the catalog query with the entry's database name as the
    schema parameter whatever schema argument is passed.  What the executor
    does with the parameters is another matter: on mssql it drops them
    ([getTableSchema_mssql_unbound]). *)
Theorem getTableSchema_default_schema (reg : registry)
    (dbId tableName : string) (db : entry) :
  getConnection reg dbId = Returns db →
  (type (descriptor db) ∈ ["postgres"; "postgresql"] →
   ∀ schema, truthy schema = false →
     getTableSchema reg dbId tableName schema
     = query reg dbId schema_query_postgres
             [VStr "public"; VStr tableName])
  ∧ (type (descriptor db) ∈ ["mssql"; "sqlserver"] →
     ∀ schema, truthy schema = false →
       getTableSchema reg dbId tableName schema
       = query reg dbId schema_query_mssql [VStr "dbo"; VStr tableName])
  ∧ (type (descriptor db) ∈ ["mysql"; "mariadb"] →
     ∀ schema,
       getTableSchema reg dbId tableName schema
       = query reg dbId schema_query_mysql
               [database (descriptor db); VStr tableName]).
Proof.
  intros Hget. unfold getTableSchema. rewrite Hget.
  change (lift (Returns db) ≫= ?k) with (bind (lift (Returns db)) k).
  unfold bind, lift, value_or.
  repeat split.
  - intros Hty schema Hs. rewrite (postgres_label_selects _ Hty), Hs.
    by destruct (query _ _ _ _).
  - intros Hty schema Hs. apply mssql_label_elem in Hty.
    destruct (mssql_label_selects _ Hty) as [-> ->]. rewrite Hty, Hs.
    by destruct (query _ _ _ _).
  - intros Hty schema. destruct (mysql_label_selects _ Hty) as [-> ->].
    by destruct (query _ _ _ _).
Qed.

(** ** [query] on SQL Server *)

(** The driver calls of one [query] on an mssql entry: [sql.connect] with
    the stored config, then the statement text alone, and [pool.close()]
    only after the statement has returned.  The positional parameters
    reach no call. *)
Lemma query_mssql_calls (reg : registry) (dbId sqlQuery : string)
    (params : list value) (db : entry) (cfg : obj) :
  getConnection reg dbId = Returns db →
  one_of (type (descriptor db)) ["mssql"; "sqlserver"] = true →
  connection db = Some (MssqlConfig cfg) →
  trace (query reg dbId sqlQuery params)
  = match mssql_connect rt cfg with
    | Some _ => [MssqlConnect cfg]
    | None =>
        match mssql_query rt cfg sqlQuery with
        | Throws _ => [MssqlConnect cfg; MssqlQuery sqlQuery]
        | Returns _ => [MssqlConnect cfg; MssqlQuery sqlQuery; MssqlClose]
        end
    end.
Proof.
  intros Hget Hty Hconn.
  destruct (mssql_label_selects _ Hty) as [Hpg Hmy].
  unfold query. rewrite Hget.
  unfold mbind, M_bind, bind, lift, try_catch, query_dispatch, query_switch.
  rewrite Hpg, Hmy, Hty, Hconn.
  unfold trace, perform, request, mbind, M_bind, bind.
  destruct (mssql_connect rt cfg); [done|].
  destruct (mssql_query rt cfg sqlQuery); [|done].
  by destruct (mssql_close rt cfg).
Qed.

(** ** The data route *)

(** The statement of a paginated read: LIMIT/OFFSET with [$n] placeholders
    for postgres, with [?] for mysql, and TOP/OFFSET with both numbers
    written into the text for mssql. *)
Lemma finalQuery_of_dialect (ty tableRef : string) (limit offset : value) :
  (ty ∈ ["postgres"; "postgresql"] →
   finalQuery_of ty tableRef limit offset
   = "SELECT * FROM " +:+ tableRef +:+ " LIMIT $1 OFFSET $2")
  ∧ (ty ∈ ["mysql"; "mariadb"] →
     finalQuery_of ty tableRef limit offset
     = "SELECT * FROM " +:+ tableRef +:+ " LIMIT ? OFFSET ?")
  ∧ (ty ∈ ["mssql"; "sqlserver"] →
     finalQuery_of ty tableRef limit offset
     = "SELECT TOP " +:+ to_String limit +:+ " * FROM " +:+ tableRef
         +:+ " OFFSET " +:+ to_String offset +:+ " ROWS").
Proof.
  repeat split; intros H;
    repeat (apply elem_of_cons in H as [->|H]; [done|]);
    by apply elem_of_nil in H.
Qed.

End Properties.

(** * The program at particular inputs *)

(** C1. A PUT on the postgres entry [main] with the payload
    [{ bogus: 'x', val: 'y' }], of which only [val] is a column of [t]:
    the SET clause keeps [val] alone, but the parameter list is built from
    all the payload's values, so the statement is sent with three
    parameters for the placeholders [$1] and [$3], and [$1], the new value
    of [val], is bound to 'x', the value of the unknown key. *)
Theorem put_row_binds_unfiltered_values :
  ∃ cfg,
    connection <$> connections_get (connections sample_state) "main"
    = Some (Some (PgPool cfg false))
    ∧ put_row (rt := sample_rt) (connections sample_state) "main" "t"
        (VStr "id") (VNum 1) (VObj [("bogus", VStr "x"); ("val", VStr "y")])
      = ([PgQuery cfg schema_query_postgres [VStr "public"; VStr "t"];
          PgQuery cfg "UPDATE t SET val = $1 WHERE id = $3"
                  [VStr "x"; VStr "y"; VNum 1]],
         Json {| success := true |}).
Proof. eexists. split; vm_compute; reflexivity. Qed.

(** C3. A statement that the server rejects, on the mssql entry [db_2]:
    the connection is opened from the stored config and the text is sent
    without its parameter, but [pool.close()] is never called; the error
    leaves [query] with the connection still open. *)
Theorem query_mssql_failure_skips_close :
  ∃ cfg,
    connection <$> connections_get (connections sample_state) "db_2"
    = Some (Some (MssqlConfig cfg))
    ∧ query (rt := sample_rt) (connections sample_state) "db_2"
        sample_bad_statement [VNum 1]
      = ([MssqlConnect cfg; MssqlQuery sample_bad_statement],
         Throws (Error "Query failed: Invalid object name 'missing'."))
    ∧ MssqlClose ∉ trace (query (rt := sample_rt) (connections sample_state)
                            "db_2" sample_bad_statement [VNum 1]).
Proof.
  eexists. split; [vm_compute; reflexivity|]. split; [vm_compute; reflexivity|].
  vm_compute. intros H.
  repeat (apply elem_of_cons in H as [H|H]; [discriminate H|]).
  by apply elem_of_nil in H.
Qed.

(** C9. [getTableSchema] on the mssql entry [db_2] with no schema given:
    the one statement sent is the catalog text with its two [?] placeholders
    as they stand.  No call carries 'dbo' or the table name, so nothing
    scopes the query to a schema or a table, and a request for another table
    under another schema makes the very same calls and gets the very same
    answer. *)
Theorem getTableSchema_mssql_binds_nothing :
  ∃ cfg,
    connection <$> connections_get (connections sample_state) "db_2"
    = Some (Some (MssqlConfig cfg))
    ∧ trace (getTableSchema (rt := sample_rt) (connections sample_state)
               "db_2" "t" VNull)
      = [MssqlConnect cfg; MssqlQuery schema_query_mssql; MssqlClose]
    ∧ getTableSchema (rt := sample_rt) (connections sample_state)
        "db_2" "t" VNull
      = getTableSchema (rt := sample_rt) (connections sample_state)
          "db_2" "orders" (VStr "sales").
Proof.
  eexists. split; [vm_compute; reflexivity|].
  split; vm_compute; reflexivity.
Qed.

(** C4, as stated, fails: a descriptor whose options set
    [trustServerCertificate] to false gets a config object in which it is
    false, not true. *)
Lemma createConnection_mssql_trust_not_forced :
  type sample_mssql_strict = "mssql"
  ∧ ∃ cfg o,
      createConnection (rt := sample_rt) sample_mssql_strict
      = ([], Returns (MssqlConfig cfg))
      ∧ obj_get cfg "options" = VObj o
      ∧ obj_get o "trustServerCertificate" = VBool false
      ∧ obj_get o "trustServerCertificate" ≠ VBool true.
Proof.
  split; [reflexivity|]. eexists _, _.
  split; [vm_compute; reflexivity|]. split; [reflexivity|].
  split; [reflexivity|]. discriminate.
Qed.

Lemma createConnection_mssql_config_witness :
  ∃ cfg o,
    createConnection (rt := sample_rt) sample_mssql_strict
    = ([], Returns (MssqlConfig cfg))
    ∧ obj_get cfg "options" = VObj o
    ∧ obj_get o "encrypt" = VBool true
    ∧ obj_get o "trustServerCertificate" = VBool false.
Proof.
  destruct (createConnection_mssql_config (rt := sample_rt)
              sample_mssql_strict [("trustServerCertificate", VBool false)])
    as (cfg & o & Hc & Ho & Henc & _ & Hgiven).
  - reflexivity.
  - reflexivity.
  - apply (bool_decide_unpack _). vm_compute. exact I.
  - exists cfg, o. split; [exact Hc|]. split; [exact Ho|].
    split; [apply Henc; reflexivity|].
    apply Hgiven. apply list_elem_of_here.
Defined.

Lemma parseEnvConfigs_stops_at_first_gap_witness :
  parseEnvConfigs (rt := sample_rt) sample_env
  = descriptor_at (rt := sample_rt) sample_env <$> seq 1 4
  ∧ length (parseEnvConfigs (rt := sample_rt) sample_env) = 4
  ∧ ∃ c, parseEnvConfigs (rt := sample_rt) sample_env !! 0 = Some c
         ∧ options c = VObj [].
Proof.
  destruct (parseEnvConfigs_stops_at_first_gap (rt := sample_rt) sample_env 5)
    as (Hrun & Hlen & Hopts).
  - lia.
  - intros i Hi.
    assert (Hcases : i = 1 ∨ i = 2 ∨ i = 3 ∨ i = 4) by lia.
    destruct Hcases as [-> | [-> | [-> | ->]]]; vm_compute; reflexivity.
  - vm_compute. discriminate.
  - split; [exact Hrun|]. split; [exact Hlen|].
    destruct (Hopts 1 "{not json") as (c & Hc & _ & Hempty).
    + lia.
    + vm_compute. reflexivity.
    + reflexivity.
    + exists c. split; [exact Hc | exact Hempty].
Defined.

Lemma initialize_one_entry_per_descriptor_witness :
  let reg := connections sample_state in
  getConnectionCount reg = 4
  ∧ reg.*1 = ["main"; "db_2"; "legacy"; "db_4"].
Proof.
  destruct (initialize_one_entry_per_descriptor (rt := sample_rt) []
              {| process_env := sample_env; connections := [] |}
              (parseEnvConfigs (rt := sample_rt) sample_env))
    as (Hcount & Hids & _).
  - reflexivity.
  - reflexivity.
  - apply (bool_decide_unpack _). vm_compute. exact I.
  - split; [exact Hcount | exact Hids].
Defined.

Lemma getConnection_outcomes_witness :
  getConnection (connections sample_state) "nope" = Throws (NotFound "nope")
  ∧ getConnection (connections sample_state) "legacy"
    = Throws (NotConnected "legacy" "Unsupported database type: oracle")
  ∧ ∃ db, getConnection (connections sample_state) "main" = Returns db
          ∧ id (descriptor db) = "main".
Proof.
  split; [|split].
  - apply (getConnection_outcomes (connections sample_state) "nope").
    vm_compute. reflexivity.
  - destruct (getConnection_outcomes (connections sample_state) "legacy")
      as (_ & Herr & _).
    destruct (connections_get (connections sample_state) "legacy")
      as [db|] eqn:Hget; [|vm_compute in Hget; discriminate Hget].
    apply (Herr db eq_refl).
    + vm_compute in Hget. injection Hget as <-. reflexivity.
    + vm_compute in Hget. injection Hget as <-. reflexivity.
  - destruct (getConnection_outcomes (connections sample_state) "main")
      as (_ & _ & Hok).
    destruct (connections_get (connections sample_state) "main")
      as [db|] eqn:Hget; [|vm_compute in Hget; discriminate Hget].
    exists db. split.
    + apply (Hok db eq_refl).
      vm_compute in Hget. injection Hget as <-. reflexivity.
    + vm_compute in Hget. injection Hget as <-. reflexivity.
Defined.

Lemma connected_entries_recognized_witness :
  reachable (rt := sample_rt) sample_state
  ∧ ∀ dbId db, getConnection (connections sample_state) dbId = Returns db →
               query_switch (type (descriptor db)) ≠ case_default.
Proof.
  assert (Hreach : reachable (rt := sample_rt) sample_state).
  { apply (reach_initialize (rt := sample_rt)), reach_new. }
  split; [exact Hreach|].
  apply (connected_entries_recognized (rt := sample_rt) sample_state Hreach).
Defined.

Lemma getTableSchema_default_schema_witness :
  let reg := connections sample_state in
  getTableSchema (rt := sample_rt) reg "main" "t" VNull
  = query (rt := sample_rt) reg "main" schema_query_postgres
          [VStr "public"; VStr "t"]
  ∧ getTableSchema (rt := sample_rt) reg "db_2" "t" VNull
    = query (rt := sample_rt) reg "db_2" schema_query_mssql
            [VStr "dbo"; VStr "t"]
  ∧ getTableSchema (rt := sample_rt) reg "db_4" "t" (VStr "archive")
    = query (rt := sample_rt) reg "db_4" schema_query_mysql
            [VStr "shop"; VStr "t"].
Proof.
  intros reg. split; [|split].
  - destruct (getConnection reg "main") as [db|e] eqn:Hget;
      [|vm_compute in Hget; discriminate Hget].
    destruct (getTableSchema_default_schema (rt := sample_rt)
                reg "main" "t" db Hget) as (Hpg & _ & _).
    apply Hpg; [|reflexivity].
    vm_compute in Hget. injection Hget as <-. apply list_elem_of_here.
  - destruct (getConnection reg "db_2") as [db|e] eqn:Hget;
      [|vm_compute in Hget; discriminate Hget].
    destruct (getTableSchema_default_schema (rt := sample_rt)
                reg "db_2" "t" db Hget) as (_ & Hms & _).
    apply Hms; [|reflexivity].
    vm_compute in Hget. injection Hget as <-. apply list_elem_of_here.
  - destruct (getConnection reg "db_4") as [db|e] eqn:Hget;
      [|vm_compute in Hget; discriminate Hget].
    destruct (getTableSchema_default_schema (rt := sample_rt)
                reg "db_4" "t" db Hget) as (_ & _ & Hmy).
    rewrite (Hmy ltac:(vm_compute in Hget; injection Hget as <-;
                       apply list_elem_of_further, list_elem_of_here)).
    vm_compute in Hget. injection Hget as <-. reflexivity.
Defined.

(** ** Further evaluations *)

(** Two descriptors with the same id share one registry entry: the second
    overwrites the first, in the first one's place. *)
Example initialize_duplicate_ids :
  getAllConnections
    (connections
       (initializeConnections (rt := sample_rt)
          [("DB_1_TYPE", "postgres"); ("DB_1_ID", "a");
           ("DB_2_TYPE", "mysql"); ("DB_2_ID", "a")]
          {| process_env := ∅; connections := [] |}).2)
  = [ {| info_id := "a"; info_name := "Database 2"; info_type := "mysql";
         info_status := connected; info_error := None |} ].
Proof. vm_compute. reflexivity. Qed.

(** A [TYPE] that is set but empty ends the loop like an unset one. *)
Example parse_stops_at_empty_type :
  id <$> parseEnvConfigs (rt := sample_rt)
           (list_to_map [("DB_1_TYPE", "mysql"); ("DB_2_TYPE", EmptyString);
                         ("DB_3_TYPE", "postgres")])
  = ["db_1"].
Proof. vm_compute. reflexivity. Qed.

(** Well-formed JSON that is not an object is stored as it is; for an mssql
    descriptor with options [null], [createConnection] throws, and the entry
    is stored with status error. *)
Example initialize_mssql_null_options :
  getAllConnections
    (connections
       (initializeConnections (rt := sample_rt)
          [("DB_1_TYPE", "mssql"); ("DB_1_OPTIONS", "null")]
          {| process_env := ∅; connections := [] |}).2)
  = [ {| info_id := "db_1"; info_name := "Database 1"; info_type := "mssql";
         info_status := error_status;
         info_error :=
           Some "Cannot read properties of null (reading 'encrypt')" |} ].
Proof. vm_compute. reflexivity. Qed.

(** The same payload with the known key first: [val] now gets its own
    value, and the unknown key's value still travels as a parameter that no
    placeholder uses. *)
Example put_row_known_key_first :
  (put_row (rt := sample_rt) (connections sample_state) "db_4" "t"
     (VStr "id") (VNum 1) (VObj [("val", VStr "y"); ("bogus", VStr "x")])).1
  !! 1
  = Some (MysqlExecute
            [("host", VUndefined); ("port", VNum 0); ("user", VUndefined);
             ("password", VUndefined); ("database", VStr "shop");
             ("waitForConnections", VBool true);
             ("connectionLimit", VNum 10)]
            "UPDATE t SET val = ? WHERE id = ?"
            [VStr "y"; VStr "x"; VNum 1]).
Proof. vm_compute. reflexivity. Qed.

(** * Further properties *)

Section MoreProperties.

Context {rt : runtime}.

Open Scope nat_scope.

(** ** What the registry holds *)

(** Every pair a reachable registry holds was stored by the [forEach] for
    some descriptor. *)
Lemma connections_set_stored (reg : registry) (c : config) :
  Forall (λ kv, ∃ c', kv = (id c', stored_entry c')) reg →
  Forall (λ kv, ∃ c', kv = (id c', stored_entry c'))
         (connections_set reg (id c) (stored_entry c)).
Proof.
  intros Hreg. induction Hreg as [|[k e] reg Hx Hreg IH]; simpl.
  - constructor; [by exists c | constructor].
  - destruct (String.eqb k (id c)) eqn:Hk.
    + apply String.eqb_eq in Hk as ->. constructor; [by exists c | done].
    + by constructor.
Qed.

Lemma connect_all_stored (dbConfigs : list config) (t : list call)
    (reg : registry) :
  Forall (λ kv, ∃ c', kv = (id c', stored_entry c')) reg →
  Forall (λ kv, ∃ c', kv = (id c', stored_entry c'))
         (fold_left connect_one dbConfigs (t, reg)).2.
Proof.
  revert t reg. induction dbConfigs as [|c rest IH]; intros t reg Hreg.
  { done. }
  simpl. rewrite connect_one_eta. apply IH.
  rewrite connect_one_registry. by apply connections_set_stored.
Qed.

Lemma reachable_stored (st : state) :
  reachable st →
  Forall (λ kv, ∃ c, kv = (id c, stored_entry c)) (connections st).
Proof.
  induction 1 as [env | dotenv st _ IH | dotenv st _ _]; simpl.
  - constructor.
  - by apply connect_all_stored.
  - apply connect_all_stored. constructor.
Qed.

Lemma connections_get_None_key (reg : registry) (k : string) :
  connections_get reg k = None → k ∉ reg.*1.
Proof.
  induction reg as [|[k' e'] reg IH]; simpl.
  - intros _. apply not_elem_of_nil.
  - destruct (String.eqb k' k) eqn:Hk; [done|]. intros Hget.
    apply not_elem_of_cons. split; [|by apply IH].
    intros ->. by rewrite String.eqb_refl in Hk.
Qed.

Lemma connections_set_same_keys (reg : registry) (k : string) (e e0 : entry) :
  connections_get reg k = Some e0 → (connections_set reg k e).*1 = reg.*1.
Proof.
  induction reg as [|[k' e'] reg IH]; simpl; [done|].
  destruct (String.eqb k' k); simpl; [done|]. intros H. f_equal. by apply IH.
Qed.

Lemma connections_set_keys (reg : registry) (k : string) (e : entry) :
  NoDup reg.*1 → NoDup (connections_set reg k e).*1.
Proof.
  intros Hnd.
  destruct (connections_get reg k) as [e0|] eqn:Hget.
  - by rewrite (connections_set_same_keys reg k e e0).
  - rewrite connections_set_fresh by done.
    rewrite fmap_app. simpl. apply NoDup_app. split; [done|].
    split; [|apply NoDup_singleton].
    intros k' Hin Hk'. apply elem_of_cons in Hk' as [Hk'|Hk'].
    + subst k'. by apply (connections_get_None_key reg k).
    + by apply elem_of_nil in Hk'.
Qed.

Lemma connect_all_keys (dbConfigs : list config) (t : list call)
    (reg : registry) :
  NoDup reg.*1 → NoDup (fold_left connect_one dbConfigs (t, reg)).2.*1.
Proof.
  revert t reg. induction dbConfigs as [|c rest IH]; intros t reg Hreg.
  { done. }
  simpl. rewrite connect_one_eta. apply IH.
  rewrite connect_one_registry. by apply connections_set_keys.
Qed.

Lemma reachable_keys (st : state) :
  reachable st → NoDup (connections st).*1.
Proof.
  induction 1 as [env | dotenv st _ IH | dotenv st _ _]; simpl.
  - constructor.
  - by apply connect_all_keys.
  - apply connect_all_keys. constructor.
Qed.

Lemma stored_entry_descriptor (c : config) : descriptor (stored_entry c) = c.
Proof. unfold stored_entry. by destruct (result (createConnection c)). Qed.

(** X1. In every registry the program can reach, an entry is filed under its
    own id: the key of every stored pair is the id of its descriptor,
    [getAllConnections] never lists an id twice, and [getConnection] by an id
    returns an entry with that id. *)
Theorem registry_filed_by_id (st : state) :
  reachable st →
  NoDup (info_id <$> getAllConnections (connections st))
  ∧ (∀ k db, (k, db) ∈ connections st → id (descriptor db) = k)
  ∧ (∀ dbId db, getConnection (connections st) dbId = Returns db →
                id (descriptor db) = dbId).
Proof.
  intros Hreach.
  pose proof (reachable_stored st Hreach) as Hst.
  rewrite Forall_forall in Hst.
  assert (Hfiled : ∀ k db, (k, db) ∈ connections st → id (descriptor db) = k).
  { intros k db Hin. destruct (Hst _ Hin) as (c & [= -> ->]).
    by rewrite stored_entry_descriptor. }
  split; [|split; [done|]].
  - assert (Hids : info_id <$> getAllConnections (connections st)
                   = (connections st).*1).
    { unfold getAllConnections. rewrite <- list_fmap_compose.
      apply Forall_fmap_ext. rewrite Forall_forall. intros [k db] Hkv.
      simpl. by apply Hfiled. }
    rewrite Hids. by apply reachable_keys.
  - intros dbId db Hget. apply getConnection_Returns in Hget as [Hget _].
    by apply Hfiled, connections_get_elem.
Qed.

Lemma connect_all_lookup (dbConfigs : list config) (t : list call)
    (reg : registry) (k : string) :
  connections_get (fold_left connect_one dbConfigs (t, reg)).2 k
  = match last (with_id k dbConfigs) with
    | Some c => Some (stored_entry c)
    | None => connections_get reg k
    end.
Proof.
  revert t reg. induction dbConfigs as [|c rest IH]; intros t reg.
  { done. }
  simpl. rewrite connect_one_eta, IH, connect_one_registry.
  unfold with_id. simpl. fold (with_id k rest).
  destruct (String.eqb (id c) k) eqn:Hk.
  - apply String.eqb_eq in Hk. subst k. rewrite last_cons.
    destruct (last (with_id (id c) rest)); [done|].
    apply connections_get_set_eq.
  - destruct (last (with_id k rest)); [done|].
    apply connections_get_set_ne. intros Heq.
    rewrite Heq in Hk. by rewrite String.eqb_refl in Hk.
Qed.

Lemma connections_set_length (reg : registry) (k : string) (e : entry) :
  length (connections_set reg k e) ≤ S (length reg).
Proof.
  induction reg as [|[k' e'] reg IH]; simpl; [lia|].
  destruct (String.eqb k' k); simpl; lia.
Qed.

Lemma connect_all_length (dbConfigs : list config) (t : list call)
    (reg : registry) :
  length (fold_left connect_one dbConfigs (t, reg)).2
  ≤ length reg + length dbConfigs.
Proof.
  revert t reg. induction dbConfigs as [|c rest IH]; intros t reg.
  { simpl. lia. }
  simpl. rewrite connect_one_eta.
  etrans; [apply IH|]. rewrite connect_one_registry.
  pose proof (connections_set_length reg (id c) (stored_entry c)). simpl. lia.
Qed.

(** X2. [initializeConnections] resolves duplicate ids by overwrite: after
    it, the entry under an id is the one the last descriptor with that id
    produced, and an id no descriptor carries keeps whatever entry the
    registry had before; the registry grows by at most one entry per
    descriptor. *)
Theorem initialize_last_descriptor_wins (dotenv : list (string * string))
    (st : state) (k : string) :
  let dbConfigs := parseEnvConfigs (reloadEnv dotenv (process_env st)) in
  let reg := connections (initializeConnections dotenv st).2 in
  connections_get reg k
  = match last (with_id k dbConfigs) with
    | Some c => Some (stored_entry c)
    | None => connections_get (connections st) k
    end
  ∧ getConnectionCount reg
    ≤ getConnectionCount (connections st) + length dbConfigs.
Proof.
  intros dbConfigs reg. split.
  - apply connect_all_lookup.
  - apply connect_all_length.
Qed.

(** ** What [query] sends and what it throws *)

Lemma errorMsg_nonempty (e : js_error) : errorMsg e ≠ EmptyString.
Proof.
  unfold errorMsg.
  destruct (String.eqb (err_message e) EmptyString) eqn:Hm; simpl.
  - destruct (String.eqb (error_toString e) EmptyString) eqn:Ht; simpl.
    + done.
    + intros H. rewrite H in Ht. done.
  - intros H. rewrite H in Hm. done.
Qed.

(** X3. Whatever [query] throws is either the failure of [getConnection],
    passed on unchanged before any driver call, or an [Error] whose message
    is 'Query failed: ' followed by a non-empty text; no error of a driver
    leaves [query] unwrapped. *)
Theorem query_failure_wrapped (reg : registry) (dbId sqlQuery : string)
    (params : list value) (e : js_error) :
  result (query reg dbId sqlQuery params) = Throws e →
  (getConnection reg dbId = Throws e
   ∧ trace (query reg dbId sqlQuery params) = [])
  ∨ (∃ db msg, getConnection reg dbId = Returns db
       ∧ msg ≠ EmptyString
       ∧ e = Error ("Query failed: " +:+ msg)).
Proof.
  unfold query, result, trace.
  destruct (getConnection reg dbId) as [db|e0] eqn:Hget; simpl.
  - destruct (query_dispatch db sqlQuery params) as [t [r|cause]]; simpl.
    + done.
    + intros [= <-]. right. exists db, (errorMsg cause).
      split; [done|]. split; [apply errorMsg_nonempty | done].
  - intros [= <-]. by left.
Qed.

(** [query] on a postgres entry that holds a live pool. *)
Lemma query_postgres (reg : registry) (dbId sqlQuery : string)
    (params : list value) (db : entry) (cfg : obj) :
  getConnection reg dbId = Returns db →
  type (descriptor db) ∈ ["postgres"; "postgresql"] →
  connection db = Some (PgPool cfg false) →
  query reg dbId sqlQuery params
  = ([PgQuery cfg sqlQuery params],
     match pg_query rt cfg sqlQuery params with
     | Returns r =>
         Returns {| rows := Rows (pg_rows r);
                    rowCount := Some (num_or (pg_rowCount r)
                                        (Z.of_nat (length (pg_rows r)))) |}
     | Throws e => Throws (Error ("Query failed: " +:+ errorMsg e))
     end).
Proof.
  intros Hget Hty Hconn. unfold query. rewrite Hget.
  unfold mbind, M_bind, bind, lift, try_catch, query_dispatch, query_switch.
  rewrite (postgres_label_selects _ Hty), Hconn.
  unfold request, mbind, M_bind, bind, mret, M_ret, ret, throw.
  by destruct (pg_query rt cfg sqlQuery params).
Qed.

(** [query] on a postgres entry whose pool has been ended, or whose handle
    is null: the guard throws before the driver is called. *)
Lemma query_postgres_closed (reg : registry) (dbId sqlQuery : string)
    (params : list value) (db : entry) :
  getConnection reg dbId = Returns db →
  type (descriptor db) ∈ ["postgres"; "postgresql"] →
  connection db = None ∨ (∃ cfg, connection db = Some (PgPool cfg true)) →
  query reg dbId sqlQuery params
  = ([], Throws (Error "Query failed: Database connection closed")).
Proof.
  intros Hget Hty Hconn. unfold query. rewrite Hget.
  unfold mbind, M_bind, bind, lift, try_catch, query_dispatch, query_switch.
  rewrite (postgres_label_selects _ Hty).
  by destruct Hconn as [-> | [cfg ->]].
Qed.

(** [query] on a mysql entry that holds a pool. *)
Lemma query_mysql (reg : registry) (dbId sqlQuery : string)
    (params : list value) (db : entry) (cfg : obj) :
  getConnection reg dbId = Returns db →
  type (descriptor db) ∈ ["mysql"; "mariadb"] →
  connection db = Some (MysqlPool cfg) →
  query reg dbId sqlQuery params
  = ([MysqlExecute cfg sqlQuery params],
     match mysql_execute rt cfg sqlQuery params with
     | Returns (Rows l) =>
         Returns {| rows := Rows l; rowCount := Some (Z.of_nat (length l)) |}
     | Returns Header => Returns {| rows := Header; rowCount := None |}
     | Returns NoRows =>
         Throws (Error ("Query failed: "
                        +:+ "Cannot read properties of undefined (reading 'length')"))
     | Throws e => Throws (Error ("Query failed: " +:+ errorMsg e))
     end).
Proof.
  intros Hget Hty Hconn. destruct (mysql_label_selects _ Hty) as [Hpg Hmy].
  unfold query. rewrite Hget.
  unfold mbind, M_bind, bind, lift, try_catch, query_dispatch, query_switch.
  rewrite Hpg, Hmy, Hconn.
  unfold request, mbind, M_bind, bind, mret, M_ret, ret, throw.
  destruct (mysql_execute rt cfg sqlQuery params) as [[l| |]|]; done.
Qed.

Lemma query_mysql_trace (reg : registry) (dbId sqlQuery : string)
    (params : list value) (db : entry) (cfg : obj) :
  getConnection reg dbId = Returns db →
  type (descriptor db) ∈ ["mysql"; "mariadb"] →
  connection db = Some (MysqlPool cfg) →
  trace (query reg dbId sqlQuery params)
  = [MysqlExecute cfg sqlQuery params].
Proof.
  intros Hget Hty Hconn.
  by rewrite (query_mysql reg dbId sqlQuery params db cfg).
Qed.

(** X4. On a postgres entry that holds a live pool, [query] makes exactly
    one driver call, on that pool, with the statement text and the parameter
    list it was given, unchanged; when the pool has been ended, or the
    handle is null, it calls no driver and throws
    'Query failed: Database connection closed'.  On a mysql entry that holds
    a pool it makes exactly one [execute] call, with text and parameters
    unchanged. *)
Theorem query_sends_params_to_pool (reg : registry) (dbId sqlQuery : string)
    (params : list value) (db : entry) (cfg : obj) :
  getConnection reg dbId = Returns db →
  (type (descriptor db) ∈ ["postgres"; "postgresql"] →
   (connection db = Some (PgPool cfg false) →
    trace (query reg dbId sqlQuery params) = [PgQuery cfg sqlQuery params])
   ∧ (connection db = None ∨ connection db = Some (PgPool cfg true) →
      query reg dbId sqlQuery params
      = ([], Throws (Error "Query failed: Database connection closed"))))
  ∧ (type (descriptor db) ∈ ["mysql"; "mariadb"] →
     connection db = Some (MysqlPool cfg) →
     trace (query reg dbId sqlQuery params)
     = [MysqlExecute cfg sqlQuery params]).
Proof.
  intros Hget. split.
  - intros Hty. split.
    + intros Hconn.
      by rewrite (query_postgres reg dbId sqlQuery params db cfg).
    + intros Hconn. apply (query_postgres_closed _ _ _ _ db); [done|done|].
      destruct Hconn as [Hconn|Hconn]; [by left | right; by exists cfg].
  - intros Hty Hconn. by apply (query_mysql_trace _ _ _ _ db).
Qed.

(** X5. On an mssql entry the positional parameters have no effect at all:
    [query] makes the same driver calls and gives the same outcome for any
    two parameter lists. *)
Theorem query_mssql_ignores_params (reg : registry) (dbId sqlQuery : string)
    (params1 params2 : list value) (db : entry) :
  getConnection reg dbId = Returns db →
  type (descriptor db) ∈ ["mssql"; "sqlserver"] →
  query reg dbId sqlQuery params1 = query reg dbId sqlQuery params2.
Proof.
  intros Hget Hty. apply mssql_label_elem in Hty.
  destruct (mssql_label_selects _ Hty) as [Hpg Hmy].
  unfold query. rewrite Hget.
  unfold mbind, M_bind, bind, lift, query_dispatch, query_switch.
  by rewrite Hpg, Hmy, Hty.
Qed.

(** ** The driver calls of [initializeConnections] and [reloadConnections] *)

Lemma createConnection_builds (c : config) :
  Forall builds_pool (trace (createConnection c)).
Proof.
  unfold createConnection, trace.
  destruct (one_of (type c) ["postgres"; "postgresql"]).
  { unfold perform, mbind, M_bind, bind. simpl.
    destruct (pg_new_Pool rt _); simpl; by repeat constructor. }
  destruct (one_of (type c) ["mysql"; "mariadb"]).
  { unfold perform, mbind, M_bind, bind. simpl.
    destruct (mysql_createPool rt _); simpl; by repeat constructor. }
  destruct (one_of (type c) ["mssql"; "sqlserver"]).
  { unfold options_encrypt. destruct (options c); simpl; constructor. }
  constructor.
Qed.

Lemma connect_one_trace (acc : list call * registry) (c : config) :
  (connect_one acc c).1 = acc.1 ++ trace (createConnection c).
Proof.
  unfold connect_one, trace. by destruct (createConnection c) as [t [h|e]].
Qed.

Lemma connect_all_builds (dbConfigs : list config) (t : list call)
    (reg : registry) :
  Forall builds_pool t →
  Forall builds_pool (fold_left connect_one dbConfigs (t, reg)).1.
Proof.
  revert t reg. induction dbConfigs as [|c rest IH]; intros t reg Ht.
  { done. }
  simpl. rewrite connect_one_eta. apply IH.
  rewrite connect_one_trace. simpl.
  apply Forall_app. split; [done | apply createConnection_builds].
Qed.

Lemma initializeConnections_builds (dotenv : list (string * string))
    (st : state) :
  Forall builds_pool (initializeConnections dotenv st).1.
Proof. apply connect_all_builds. constructor. Qed.

Lemma closeConnection_ends (db : entry) :
  Forall (λ c, lifecycle_call c = true) (closeConnection db).
Proof.
  unfold closeConnection. destruct (connection db) as [h|]; [|constructor].
  destruct (_ || _); [|constructor].
  destruct h; by repeat constructor.
Qed.

Lemma builds_pool_lifecycle (l : list call) :
  Forall builds_pool l → Forall (λ c, lifecycle_call c = true) l.
Proof. intros H. eapply Forall_impl; [exact H|]. by intros []. Qed.

(** X6. Bootstrap and reload never talk to a database: every driver call of
    [initializeConnections] builds a pool, and every driver call of
    [reloadConnections] builds or ends one.  No statement is sent and no SQL
    Server connection is opened, whatever the registry and the
    configuration. *)
Theorem reload_sends_no_statement (dotenv : list (string * string))
    (st : state) :
  Forall builds_pool (initializeConnections dotenv st).1
  ∧ Forall (λ c, lifecycle_call c = true) (reloadConnections dotenv st).1.
Proof.
  split; [apply initializeConnections_builds|].
  unfold reloadConnections. cbn [fst]. apply Forall_app. split.
  - apply Forall_concat, Forall_fmap, Forall_forall.
    intros kv _. apply closeConnection_ends.
  - apply builds_pool_lifecycle, initializeConnections_builds.
Qed.

Lemma closeConnection_stored (c : config) :
  closeConnection (stored_entry c)
  = match connection (stored_entry c) with
    | Some (PgPool cfg _) | Some (MysqlPool cfg) => [PoolEnd cfg]
    | _ => []
    end.
Proof.
  unfold closeConnection, stored_entry.
  destruct (result (createConnection c)) as [h|e] eqn:Hres;
    cbn [connection descriptor]; [|done].
  apply createConnection_Returns in Hres as [_ Hfit].
  unfold query_switch in Hfit.
  destruct (one_of (type c) ["postgres"; "postgresql"]).
  { by destruct h. }
  destruct (one_of (type c) ["mysql"; "mariadb"]).
  { by destruct h. }
  destruct (one_of (type c) ["mssql"; "sqlserver"]); by destruct h.
Qed.

Lemma close_all_stored (reg : registry) :
  Forall (λ kv, ∃ c, kv = (id c, stored_entry c)) reg →
  concat (map (λ kv, closeConnection kv.2) reg) = PoolEnd <$> pools_of reg.
Proof.
  induction 1 as [|kv reg (c & ->) Hreg IH]; [done|].
  simpl. rewrite closeConnection_stored, IH. unfold pools_of. simpl.
  by destruct (connection (stored_entry c)) as [[cfg b|cfg|cfg]|].
Qed.

(** X7. A reload of a reachable registry first ends every pool the registry
    holds, each one once and in registry order, and makes no call for the
    mssql entries and the failed ones; only then are the new pools built,
    and none of those later calls ends a pool. *)
Theorem reload_ends_every_pool (dotenv : list (string * string))
    (st : state) :
  reachable st →
  ∃ built,
    (reloadConnections dotenv st).1
    = (PoolEnd <$> pools_of (connections st)) ++ built
    ∧ Forall builds_pool built.
Proof.
  intros Hreach.
  exists (initializeConnections dotenv
            {| process_env := reloadEnv dotenv (process_env st);
               connections := [] |}).1.
  split; [|apply initializeConnections_builds].
  unfold reloadConnections. cbn [fst].
  by rewrite (close_all_stored _ (reachable_stored st Hreach)).
Qed.

(** ** The routes *)

Lemma is_postgres_label (ty : string) :
  ty ∈ ["postgres"; "postgresql"] → is_postgres ty = true.
Proof.
  intros H. repeat (apply elem_of_cons in H as [->|H]; [by vm_compute|]).
  by apply elem_of_nil in H.
Qed.

Lemma is_postgres_mysql (ty : string) :
  ty ∈ ["mysql"; "mariadb"] → is_postgres ty = false.
Proof.
  intros H. repeat (apply elem_of_cons in H as [->|H]; [by vm_compute|]).
  by apply elem_of_nil in H.
Qed.

(** X8. A request for an id the registry does not hold, or holds with status
    error, is answered 500 with the message of [getConnection] by every
    table and row route, and none of them makes a driver call. *)
Theorem routes_surface_lookup_failure (reg : registry)
    (dbId tableName : string) (e : js_error) :
  getConnection reg dbId = Throws e →
  get_tables reg dbId = ([], Failure 500 (err_message e))
  ∧ (∀ q_schema,
       get_table_schema reg dbId tableName q_schema
       = ([], Failure 500 (err_message e)))
  ∧ (∀ q_schema q_limit q_offset,
       get_table_data reg dbId tableName q_schema q_limit q_offset
       = ([], Failure 500 (err_message e)))
  ∧ (∀ data, post_row reg dbId tableName data
             = ([], Failure 500 (err_message e)))
  ∧ (∀ primaryKey primaryValue,
       truthy primaryKey = true → is_undefined primaryValue = false →
       (∀ data, put_row reg dbId tableName primaryKey primaryValue data
                = ([], Failure 500 (err_message e)))
       ∧ delete_row reg dbId tableName primaryKey primaryValue
         = ([], Failure 500 (err_message e))).
Proof.
  intros Hget. split; [|split; [|split; [|split]]].
  - unfold get_tables, getTables. by rewrite Hget.
  - intros q. unfold get_table_schema, getTableSchema. by rewrite Hget.
  - intros qs ql qo. unfold get_table_data. by rewrite Hget.
  - intros data. unfold post_row. by rewrite Hget.
  - intros pk pv Hpk Hpv. split.
    + intros data. unfold put_row. by rewrite Hpk, Hpv, Hget.
    + unfold delete_row. by rewrite Hpk, Hpv, Hget.
Qed.

Lemma respond_not_400 {A : Type} (m : M A) (msg : string) :
  (respond m).2 ≠ Failure 400 msg.
Proof. unfold respond. by destruct m as [t [a|e]]. Qed.

(** X9. The update and the delete route answer 400 exactly when the primary
    key is missing (falsy) or the primary value is undefined, and then they
    look nothing up and call no driver. *)
Theorem row_routes_bad_request (reg : registry) (dbId tableName : string)
    (primaryKey primaryValue data : value) :
  (truthy primaryKey = false ∨ is_undefined primaryValue = true →
   put_row reg dbId tableName primaryKey primaryValue data
   = ([], Failure 400 "Primary key and value required")
   ∧ delete_row reg dbId tableName primaryKey primaryValue
     = ([], Failure 400 "Primary key and value required"))
  ∧ (truthy primaryKey = true ∧ is_undefined primaryValue = false →
     ∀ msg,
       (put_row reg dbId tableName primaryKey primaryValue data).2
       ≠ Failure 400 msg
       ∧ (delete_row reg dbId tableName primaryKey primaryValue).2
         ≠ Failure 400 msg).
Proof.
  unfold put_row, delete_row. split.
  - intros [-> | ->]; simpl; [done|]. by rewrite orb_true_r.
  - intros [-> ->] msg. simpl. split; apply respond_not_400.
Qed.

(** X10. A delete with a non-empty string as primary key and a defined
    value sends exactly one statement, with the primary value as its only
    parameter: [DELETE FROM table WHERE key = $1] on a postgres entry that
    holds a live pool, [... = ?] on a mysql entry that holds a pool.  On a
    postgres entry whose pool has been ended it sends nothing and answers
    500 'Query failed: Database connection closed'. *)
Theorem delete_row_one_statement (reg : registry) (dbId tableName key : string)
    (primaryValue : value) (db : entry) (cfg : obj) :
  getConnection reg dbId = Returns db →
  key ≠ EmptyString → is_undefined primaryValue = false →
  (type (descriptor db) ∈ ["postgres"; "postgresql"] →
   (connection db = Some (PgPool cfg false) →
    (delete_row reg dbId tableName (VStr key) primaryValue).1
    = [PgQuery cfg ("DELETE FROM " +:+ tableName +:+ " WHERE "
                      +:+ key +:+ " = $1")
               [primaryValue]])
   ∧ (connection db = Some (PgPool cfg true) →
      delete_row reg dbId tableName (VStr key) primaryValue
      = ([], Failure 500 "Query failed: Database connection closed")))
  ∧ (type (descriptor db) ∈ ["mysql"; "mariadb"] →
     connection db = Some (MysqlPool cfg) →
     (delete_row reg dbId tableName (VStr key) primaryValue).1
     = [MysqlExecute cfg ("DELETE FROM " +:+ tableName +:+ " WHERE "
                            +:+ key +:+ " = ?")
                     [primaryValue]]).
Proof.
  intros Hget Hkey Hpv.
  assert (Hpk : truthy (VStr key) = true).
  { simpl. apply negb_true_iff. by apply String.eqb_neq. }
  unfold delete_row. rewrite Hpk, Hpv. cbn [negb orb to_String].
  rewrite Hget.
  unfold respond, mbind, M_bind, bind, lift, mret, M_ret, ret.
  split.
  - intros Hty. rewrite (is_postgres_label _ Hty). split; intros Hconn.
    + rewrite (query_postgres reg dbId _ _ db cfg) by done.
      by destruct (pg_query rt cfg _ [primaryValue]).
    + rewrite (query_postgres_closed reg dbId _ _ db); [done|done|done|].
      right. by exists cfg.
  - intros Hty Hconn. rewrite (is_postgres_mysql _ Hty).
    rewrite (query_mysql reg dbId _ _ db cfg) by done.
    destruct (mysql_execute rt cfg _ [primaryValue]) as [[l| |]|]; done.
Qed.

Lemma imap_numbered {A : Type} (g : nat → string) (l : list A) (k : nat) :
  imap (λ i _, g (i + k)) l = g <$> seq k (length l).
Proof.
  revert k. induction l as [|x l IH]; intros k; [done|].
  rewrite imap_cons. cbn [length seq]. rewrite fmap_cons. f_equal.
  rewrite <- (IH (S k)).
  apply imap_ext. intros i y _. simpl. f_equal. lia.
Qed.

Lemma map_const_replicate {A B : Type} (b : B) (l : list A) :
  map (λ _, b) l = replicate (length l) b.
Proof. induction l as [|x l IH]; simpl; [done | by rewrite IH]. Qed.

(** X11. An insert names every key of the payload as a column, without
    consulting the schema, and binds every value.  On a postgres entry that
    holds a live pool the one statement sent has the placeholders
    [$1 .. $n] for the [n] keys, on a mysql entry that holds a pool [n]
    question marks, and the parameters are the payload's values in key
    order.  On a postgres entry whose pool has been ended nothing is sent
    and the answer is 500 'Query failed: Database connection closed'. *)
Theorem post_row_binds_every_value (reg : registry) (dbId tableName : string)
    (props : obj) (db : entry) (cfg : obj) :
  getConnection reg dbId = Returns db →
  (type (descriptor db) ∈ ["postgres"; "postgresql"] →
   (connection db = Some (PgPool cfg false) →
    (post_row reg dbId tableName (VObj props)).1
    = [PgQuery cfg
         ("INSERT INTO " +:+ tableName +:+ " ("
            +:+ join ", " (map fst props) +:+ ") VALUES ("
            +:+ join ", " ((λ i, "$" +:+ pretty i)
                             <$> seq 1 (length props))
            +:+ ")")
         (map snd props)])
   ∧ (connection db = Some (PgPool cfg true) →
      post_row reg dbId tableName (VObj props)
      = ([], Failure 500 "Query failed: Database connection closed")))
  ∧ (type (descriptor db) ∈ ["mysql"; "mariadb"] →
     connection db = Some (MysqlPool cfg) →
     (post_row reg dbId tableName (VObj props)).1
     = [MysqlExecute cfg
          ("INSERT INTO " +:+ tableName +:+ " ("
             +:+ join ", " (map fst props) +:+ ") VALUES ("
             +:+ join ", " (replicate (length props) "?")
             +:+ ")")
          (map snd props)]).
Proof.
  intros Hget. unfold post_row. rewrite Hget.
  unfold respond, mbind, M_bind, bind, lift, Object_keys, Object_values,
    mret, M_ret, ret, insert_placeholders.
  cbn [own_props]. split.
  - intros Hty. rewrite (is_postgres_label _ Hty).
    rewrite (imap_numbered (λ i, "$" +:+ pretty i) (map snd props) 1).
    rewrite length_map. split; intros Hconn.
    + rewrite (query_postgres reg dbId _ _ db cfg) by done.
      by destruct (pg_query rt cfg _ (map snd props)).
    + rewrite (query_postgres_closed reg dbId _ _ db); [done|done|done|].
      right. by exists cfg.
  - intros Hty Hconn. rewrite (is_postgres_mysql _ Hty).
    rewrite map_const_replicate, length_map.
    rewrite (query_mysql reg dbId _ _ db cfg) by done.
    destruct (mysql_execute rt cfg _ (map snd props)) as [[l| |]|]; done.
Qed.

Lemma filter_all {A : Type} (f : A → bool) (l : list A) :
  forallb f l = true → List.filter f l = l.
Proof.
  induction l as [|x l IH]; simpl; [done|].
  intros H. apply andb_true_iff in H as [-> H]. by rewrite IH.
Qed.

(** X12. When every key of the payload is a column of the table, the update
    on a postgres entry is consistent: after the schema lookup one UPDATE is
    sent whose SET clause assigns the keys in payload order to [$1 .. $n],
    whose WHERE clause compares the primary key with [$n+1], and whose
    parameters are the payload's values in the same order followed by the
    primary value. *)
Theorem put_row_known_keys_aligned (reg : registry) (dbId tableName : string)
    (primaryKey primaryValue : value) (props : obj) (db : entry) (cfg : obj)
    (columns : list row) (n : option Z) :
  getConnection reg dbId = Returns db →
  type (descriptor db) ∈ ["postgres"; "postgresql"] →
  connection db = Some (PgPool cfg false) →
  truthy primaryKey = true → is_undefined primaryValue = false →
  pg_query rt cfg schema_query_postgres [VStr "public"; VStr tableName]
  = Returns {| pg_rows := columns; pg_rowCount := n |} →
  forallb (column_known columns) (map fst props) = true →
  (put_row reg dbId tableName primaryKey primaryValue (VObj props)).1
  = [PgQuery cfg schema_query_postgres [VStr "public"; VStr tableName];
     PgQuery cfg
       ("UPDATE " +:+ tableName +:+ " SET "
          +:+ join ", " (imap (λ idx key,
                                 key +:+ " = " +:+ ("$" +:+ pretty (idx + 1)))
                              (map fst props))
          +:+ " WHERE " +:+ to_String primaryKey +:+ " = $"
          +:+ pretty (length (map snd props) + 1))
       (map snd props ++ [primaryValue])].
Proof.
  intros Hget Hty Hconn Hpk Hpv Hschema Hknown.
  unfold put_row. rewrite Hpk, Hpv. cbn [negb orb].
  unfold getTableSchema. rewrite Hget.
  unfold respond, mbind, M_bind, bind, lift, Object_keys, Object_values,
    filter_columns, mret, M_ret, ret, value_or, setClause_of, whereClause_of.
  cbn [own_props truthy].
  rewrite (postgres_label_selects _ Hty), (is_postgres_label _ Hty).
  rewrite (query_postgres reg dbId schema_query_postgres _ db cfg)
    by done.
  rewrite Hschema. cbn [rows pg_rows].
  rewrite (filter_all _ _ Hknown).
  rewrite (query_postgres reg dbId _ _ db cfg) by done.
  by destruct (pg_query rt cfg _ (map snd props ++ [primaryValue])).
Qed.

(** ** [getTableSchema] at the drivers *)

(** With a live pool, the default schema of postgres and the database name
    of mysql do reach the driver, as bound parameters. *)
Lemma getTableSchema_pool_calls (reg : registry) (dbId tableName : string)
    (schema : value) (db : entry) (cfg : obj) :
  getConnection reg dbId = Returns db →
  (type (descriptor db) ∈ ["postgres"; "postgresql"] →
   connection db = Some (PgPool cfg false) →
   truthy schema = false →
   trace (getTableSchema reg dbId tableName schema)
   = [PgQuery cfg schema_query_postgres [VStr "public"; VStr tableName]])
  ∧ (type (descriptor db) ∈ ["mysql"; "mariadb"] →
     connection db = Some (MysqlPool cfg) →
     trace (getTableSchema reg dbId tableName schema)
     = [MysqlExecute cfg schema_query_mysql
          [database (descriptor db); VStr tableName]]).
Proof.
  intros Hget. unfold getTableSchema. rewrite Hget.
  change (lift (Returns db) ≫= ?k) with (bind (lift (Returns db)) k).
  unfold bind, lift, value_or. split.
  - intros Hty Hconn Hs. rewrite (postgres_label_selects _ Hty), Hs.
    rewrite (query_postgres reg dbId _ _ db cfg) by done. done.
  - intros Hty Hconn. destruct (mysql_label_selects _ Hty) as [-> ->].
    rewrite (query_mysql reg dbId _ _ db cfg) by done. done.
Qed.

(** On an mssql entry neither the schema nor the table name reaches the
    driver: [getTableSchema] makes the same calls and gives the same outcome
    for every table and every schema argument, and what it sends is the
    catalog text with its two placeholders unbound. *)
Lemma getTableSchema_mssql_unbound (reg : registry) (dbId : string)
    (db : entry) (cfg : obj) :
  getConnection reg dbId = Returns db →
  type (descriptor db) ∈ ["mssql"; "sqlserver"] →
  connection db = Some (MssqlConfig cfg) →
  (∀ table1 table2 schema1 schema2,
     getTableSchema reg dbId table1 schema1
     = getTableSchema reg dbId table2 schema2)
  ∧ ∀ tableName schema c,
      c ∈ trace (getTableSchema reg dbId tableName schema) →
      c = MssqlConnect cfg ∨ c = MssqlQuery schema_query_mssql
      ∨ c = MssqlClose.
Proof.
  intros Hget Hty Hconn. apply mssql_label_elem in Hty.
  destruct (mssql_label_selects _ Hty) as [Hpg Hmy].
  assert (Heq : ∀ tableName schema,
            getTableSchema reg dbId tableName schema
            = query reg dbId schema_query_mssql []).
  { intros tableName schema. unfold getTableSchema. rewrite Hget.
    change (lift (Returns db) ≫= ?k) with (bind (lift (Returns db)) k).
    unfold bind, lift. rewrite Hpg, Hmy, Hty.
    unfold query. rewrite Hget.
    unfold mbind, M_bind, bind, lift, query_dispatch, query_switch.
    rewrite Hpg, Hmy, Hty.
    by destruct (try_catch _ _). }
  split.
  - intros t1 t2 s1 s2. by rewrite !Heq.
  - intros tableName schema c. rewrite Heq.
    rewrite (query_mssql_calls reg dbId schema_query_mssql [] db cfg)
      by done.
    destruct (mssql_connect rt cfg); [|destruct (mssql_query rt cfg _)];
      intros Hc;
      repeat (apply elem_of_cons in Hc as [->|Hc]; [tauto|]);
      by apply elem_of_nil in Hc.
Qed.

(** ** [getTables] and the data route *)

Lemma try_catch_rethrow {A : Type} (m : M A) :
  try_catch m (λ e, throw e) = m.
Proof.
  unfold try_catch, throw. destruct m as [t [a|e]]; [done|].
  by rewrite app_nil_r.
Qed.

(** X13. [getTables] hands the executor the catalog query of the entry's
    dialect: for mysql with the entry's database name as the only
    parameter, for postgres and mssql with no parameter at all, and whatever
    the executor throws comes back unchanged. *)
Theorem getTables_catalog_query (reg : registry) (dbId : string)
    (db : entry) :
  getConnection reg dbId = Returns db →
  (type (descriptor db) ∈ ["postgres"; "postgresql"] →
   getTables reg dbId = query reg dbId tables_query_postgres [])
  ∧ (type (descriptor db) ∈ ["mysql"; "mariadb"] →
     getTables reg dbId
     = query reg dbId tables_query_mysql [database (descriptor db)])
  ∧ (type (descriptor db) ∈ ["mssql"; "sqlserver"] →
     getTables reg dbId = query reg dbId tables_query_mssql []).
Proof.
  intros Hget. unfold getTables. rewrite Hget.
  change (lift (Returns db) ≫= ?k) with (bind (lift (Returns db)) k).
  unfold bind, lift. split; [|split]; intros Hty.
  - rewrite (postgres_label_selects _ Hty), try_catch_rethrow.
    by destruct (query _ _ _ _).
  - destruct (mysql_label_selects _ Hty) as [-> ->].
    by destruct (query _ _ _ _).
  - apply mssql_label_elem in Hty.
    destruct (mssql_label_selects _ Hty) as [-> ->].
    rewrite Hty, try_catch_rethrow. by destruct (query _ _ _ _).
Qed.

Lemma tableRef_mysql (ty tableName : string) (schema : value) :
  ty ∈ ["mysql"; "mariadb"] → tableRef_of ty tableName schema = tableName.
Proof.
  intros H. unfold tableRef_of.
  repeat (apply elem_of_cons in H as [->|H];
          [by rewrite andb_false_r|]).
  by apply elem_of_nil in H.
Qed.

(** X14. For a mysql or mariadb entry the [schema] query parameter of the
    data route has no effect: the table is never schema-qualified, and two
    requests that differ in [schema] only make the same driver calls and get
    the same answer. *)
Theorem data_request_mysql_ignores_schema (reg : registry)
    (dbId tableName : string) (db : entry)
    (schema1 schema2 q_limit q_offset : option string) :
  getConnection reg dbId = Returns db →
  type (descriptor db) ∈ ["mysql"; "mariadb"] →
  get_table_data reg dbId tableName schema1 q_limit q_offset
  = get_table_data reg dbId tableName schema2 q_limit q_offset.
Proof.
  intros Hget Hty. unfold get_table_data. rewrite Hget.
  unfold mbind, M_bind, bind, lift.
  by rewrite !(tableRef_mysql _ _ _ Hty).
Qed.

(** ** Pools and the [.env] file *)

(** X20. For a mysql or mariadb descriptor whose options are an object,
    [createConnection] makes one call, [createPool], and returns the pool
    unless that call throws; in the configuration it passes, every property
    the options give has the given value, a connection field the options do
    not mention is the descriptor's, and the pool size is 10 and
    [waitForConnections] true unless the options say otherwise. *)
Theorem createConnection_mysql_pool (c : config) (props : obj) :
  type c ∈ ["mysql"; "mariadb"] →
  options c = VObj props →
  NoDup props.*1 →
  ∃ cfg,
    createConnection c
    = ([CreatePool cfg],
       match mysql_createPool rt cfg with
       | None => Returns (MysqlPool cfg)
       | Some e => Throws e
       end)
    ∧ (∀ k v, (k, v) ∈ props → obj_get cfg k = v)
    ∧ (obj_has props "connectionLimit" = false →
       obj_get cfg "connectionLimit" = VNum 10)
    ∧ (obj_has props "waitForConnections" = false →
       obj_get cfg "waitForConnections" = VBool true)
    ∧ (obj_has props "host" = false → obj_get cfg "host" = host c)
    ∧ (obj_has props "port" = false → obj_get cfg "port" = port c)
    ∧ (obj_has props "user" = false → obj_get cfg "user" = user c)
    ∧ (obj_has props "password" = false →
       obj_get cfg "password" = password c)
    ∧ (obj_has props "database" = false →
       obj_get cfg "database" = database c).
Proof.
  intros Hty Hopts Hnd. destruct (mysql_label_selects _ Hty) as [Hpg Hmy].
  unfold createConnection. rewrite Hpg, Hmy, Hopts.
  exists (spread [("host", host c); ("port", port c); ("user", user c);
                  ("password", password c); ("database", database c);
                  ("waitForConnections", VBool true);
                  ("connectionLimit", VNum 10)]
                 (VObj props)).
  split.
  { unfold perform, mbind, M_bind, bind, mret, M_ret, ret.
    by destruct (mysql_createPool rt _). }
  unfold spread. cbn [own_props].
  split; [intros k v Hin; by apply spread_props_given|].
  repeat split; intros Hno;
    by rewrite spread_props_other by (by apply obj_has_false).
Qed.

(** X21. A reload never forgets a variable.  When the [.env] file read by a
    reload assigns nothing that the file of the reload before it did not
    assign with the same value (lines were deleted, none added or changed),
    the reload leaves the environment and the registry exactly as they
    were: a database whose lines were deleted stays configured. *)
Theorem reload_after_deleting_lines (dotenv1 dotenv2 : list (string * string))
    (st : state) :
  assignments dotenv2 ⊆ assignments dotenv1 →
  (reloadConnections dotenv2 (reloadConnections dotenv1 st).2).2
  = (reloadConnections dotenv1 st).2.
Proof.
  intros Hsub.
  assert (Henv : ∀ env, reloadEnv dotenv2 (reloadEnv dotenv1 env)
                        = reloadEnv dotenv1 env).
  { intros env. rewrite !reloadEnv_union. fold (assignments dotenv1).
    fold (assignments dotenv2).
    by rewrite (assoc_L (∪)), (map_subseteq_union _ _ Hsub). }
  rewrite (reloadConnections_state dotenv2 (reloadConnections dotenv1 st).2).
  rewrite (reloadConnections_state dotenv1 st). simpl.
  by rewrite !Henv.
Qed.

End MoreProperties.

(** * Authentication *)

Section AuthProperties.

Variable jwt_sign : string → string.
Variable jwt_verify : string → string → bool.

Open Scope Z_scope.

Lemma strict_eq_str_eq (v : value) (s : string) :
  strict_eq_str v s = true → v = VStr s.
Proof.
  destruct v; simpl; try done. intros H. by apply String.eqb_eq in H as ->.
Qed.

(** X15. A token is issued only when the server has a password and a usable
    secret, the submitted password is exactly the configured one, and the
    address is not locked out (its record, if any, counts fewer than five
    failures or its window is over); the token is the signature under the
    configured secret, and the address's record is removed. *)
Theorem login_token_requires (loginAttempts : gmap string attempts)
    (env : gmap string string) (password : value)
    (ip remoteAddress : option string) (now : Z)
    (loginAttempts' : gmap string attempts) (tok : string) :
  login jwt_sign loginAttempts env password ip remoteAddress now
  = (loginAttempts', Json {| token := tok |}) →
  configured env
  ∧ password = VStr (default EmptyString (env !! "PASSWORD"))
  ∧ tok = jwt_sign (default EmptyString (env !! "JWT_SECRET"))
  ∧ loginAttempts' = delete (clientIp_of ip remoteAddress) loginAttempts
  ∧ ∀ a, loginAttempts !! clientIp_of ip remoteAddress = Some a →
         count a < MAX_ATTEMPTS ∨ resetTime a < now.
Proof.
  unfold login, configured. fold (clientIp_of ip remoteAddress).
  destruct (str_truthy (env !! "PASSWORD")) eqn:Hp; simpl; [|done].
  destruct (secret_unusable (env !! "JWT_SECRET")) eqn:Hs; simpl; [done|].
  destruct (MAX_ATTEMPTS <=? _) eqn:Hmax; [done|].
  destruct (truthy password) eqn:Ht; simpl; [|done].
  destruct (strict_eq_str password _) eqn:Heq; simpl; [|done].
  intros [= <- <-]. repeat split; try done.
  - by apply strict_eq_str_eq.
  - intros a Ha. rewrite Ha in Hmax. simpl in Hmax.
    destruct (resetTime a <? now) eqn:Hr; simpl in Hmax; lia.
Qed.

Lemma login_first_failure (loginAttempts : gmap string attempts)
    (env : gmap string string) (password : value) (ip : string) (now : Z) :
  configured env → ip ≠ EmptyString →
  loginAttempts !! ip = None →
  wrong_password env password = true →
  login jwt_sign loginAttempts env password (Some ip) None now
  = (<[ip := {| count := 1; resetTime := now + WINDOW_MS |}]> loginAttempts,
     Failure 401 "Invalid password").
Proof.
  intros [Hp Hs] Hip Hnone Hwrong. unfold login. rewrite Hp, Hs. simpl.
  assert (Hcl : (if String.eqb ip EmptyString then "unknown" else ip) = ip).
  { destruct (String.eqb ip EmptyString) eqn:He; [|done].
    by apply String.eqb_eq in He. }
  rewrite Hcl, Hnone. simpl.
  assert (Hw : (now + WINDOW_MS <? now) = false) by (unfold WINDOW_MS; lia).
  rewrite Hw. simpl. unfold wrong_password in Hwrong. by rewrite Hwrong.
Qed.

Lemma login_next_failure (loginAttempts : gmap string attempts)
    (env : gmap string string) (password : value) (ip : string) (now : Z)
    (a : attempts) :
  configured env → ip ≠ EmptyString →
  loginAttempts !! ip = Some a →
  count a < MAX_ATTEMPTS → now ≤ resetTime a →
  wrong_password env password = true →
  login jwt_sign loginAttempts env password (Some ip) None now
  = (<[ip := {| count := count a + 1; resetTime := resetTime a |}]>
       loginAttempts,
     Failure 401 "Invalid password").
Proof.
  intros [Hp Hs] Hip Hsome Hcount Hnow Hwrong. unfold login.
  rewrite Hp, Hs. simpl.
  assert (Hcl : (if String.eqb ip EmptyString then "unknown" else ip) = ip).
  { destruct (String.eqb ip EmptyString) eqn:He; [|done].
    by apply String.eqb_eq in He. }
  rewrite Hcl, Hsome. simpl.
  assert (Hw : (resetTime a <? now) = false) by lia. rewrite Hw.
  assert (Hm : (MAX_ATTEMPTS <=? count a) = false) by lia. rewrite Hm.
  unfold wrong_password in Hwrong. by rewrite Hwrong.
Qed.

Lemma login_locked (loginAttempts : gmap string attempts)
    (env : gmap string string) (password : value) (ip : string) (now : Z)
    (a : attempts) :
  configured env → ip ≠ EmptyString →
  loginAttempts !! ip = Some a →
  MAX_ATTEMPTS ≤ count a → now ≤ resetTime a →
  login jwt_sign loginAttempts env password (Some ip) None now
  = (loginAttempts,
     Failure 429 "Too many login attempts. Please try again later.").
Proof.
  intros [Hp Hs] Hip Hsome Hcount Hnow. unfold login.
  rewrite Hp, Hs. simpl.
  assert (Hcl : (if String.eqb ip EmptyString then "unknown" else ip) = ip).
  { destruct (String.eqb ip EmptyString) eqn:He; [|done].
    by apply String.eqb_eq in He. }
  rewrite Hcl, Hsome. simpl.
  assert (Hw : (resetTime a <? now) = false) by lia. rewrite Hw.
  assert (Hm : (MAX_ATTEMPTS <=? count a) = true) by lia. by rewrite Hm.
Qed.

Lemma login_run_failures (env : gmap string string) (ip : string)
    (requests : list (value * Z)) (loginAttempts : gmap string attempts)
    (k R : Z) :
  configured env → ip ≠ EmptyString →
  loginAttempts !! ip = Some {| count := k; resetTime := R |} →
  k + Z.of_nat (length requests) ≤ MAX_ATTEMPTS →
  Forall (λ r, wrong_password env r.1 = true ∧ r.2 ≤ R) requests →
  (login_run jwt_sign loginAttempts env ip requests).2
  = replicate (length requests) (Failure 401 "Invalid password")
  ∧ (login_run jwt_sign loginAttempts env ip requests).1 !! ip
    = Some {| count := k + Z.of_nat (length requests); resetTime := R |}.
Proof.
  intros Hconf Hip. revert loginAttempts k.
  induction requests as [|[pw t] rest IH]; intros s k Hs Hk Hall.
  { simpl. split; [done|]. rewrite Hs. do 2 f_equal. lia. }
  apply Forall_cons in Hall as [[Hw Ht] Hall]. simpl in Hw, Ht.
  cbn [login_run length].
  rewrite (login_next_failure s env pw ip t _ Hconf Hip Hs)
    by (simpl in *; (done || lia)).
  cbn [fst snd count resetTime].
  destruct (IH (<[ip := {| count := k + 1; resetTime := R |}]> s) (k + 1))
    as [Hans Hrec].
  - by rewrite lookup_insert_eq.
  - simpl in Hk. lia.
  - done.
  - split.
    + cbn [replicate]. by rewrite Hans.
    + rewrite Hrec. do 2 f_equal. lia.
Qed.

Lemma login_stale_failure (loginAttempts : gmap string attempts)
    (env : gmap string string) (password : value) (ip : string) (now : Z)
    (a : attempts) :
  configured env → ip ≠ EmptyString →
  loginAttempts !! ip = Some a →
  resetTime a < now →
  wrong_password env password = true →
  login jwt_sign loginAttempts env password (Some ip) None now
  = (<[ip := {| count := 1; resetTime := now + WINDOW_MS |}]> loginAttempts,
     Failure 401 "Invalid password").
Proof.
  intros [Hp Hs] Hip Hsome Hpast Hwrong. unfold login.
  rewrite Hp, Hs. simpl.
  assert (Hcl : (if String.eqb ip EmptyString then "unknown" else ip) = ip).
  { destruct (String.eqb ip EmptyString) eqn:He; [|done].
    by apply String.eqb_eq in He. }
  rewrite Hcl, Hsome. simpl.
  assert (Hw : (resetTime a <? now) = true) by lia. rewrite Hw. simpl.
  unfold wrong_password in Hwrong. by rewrite Hwrong.
Qed.

(** X16. From an address that has no attempt record, or only one whose
    window is over when the first of them arrives, five failed logins, the
    later four no later than fifteen minutes after the first, are each
    answered 401 and then lock the address out: until that window is over
    every further login from it is answered 429 and changes nothing, the
    right password included. *)
Theorem five_failures_lock_out (loginAttempts : gmap string attempts)
    (env : gmap string string) (ip : string) (pw1 : value) (t1 : Z)
    (rest : list (value * Z)) :
  configured env → ip ≠ EmptyString →
  (∀ a, loginAttempts !! ip = Some a → resetTime a < t1) →
  wrong_password env pw1 = true →
  length rest = 4%nat →
  Forall (λ r, wrong_password env r.1 = true ∧ r.2 ≤ t1 + WINDOW_MS) rest →
  let r := login_run jwt_sign loginAttempts env ip ((pw1, t1) :: rest) in
  r.2 = replicate 5 (Failure 401 "Invalid password")
  ∧ ∀ password now, now ≤ t1 + WINDOW_MS →
      login jwt_sign r.1 env password (Some ip) None now
      = (r.1, Failure 429 "Too many login attempts. Please try again later.").
Proof.
  intros Hconf Hip Hstale Hw1 Hlen Hall r. unfold r. cbn [login_run].
  assert (Hfirst :
    login jwt_sign loginAttempts env pw1 (Some ip) None t1
    = (<[ip := {| count := 1; resetTime := t1 + WINDOW_MS |}]> loginAttempts,
       Failure 401 "Invalid password")).
  { destruct (loginAttempts !! ip) as [a|] eqn:Hrec.
    - apply (login_stale_failure _ _ _ _ _ a); try done. by apply Hstale.
    - by apply login_first_failure. }
  rewrite Hfirst. cbn [fst snd].
  destruct (login_run_failures env ip rest
              (<[ip := {| count := 1; resetTime := t1 + WINDOW_MS |}]>
                 loginAttempts) 1 (t1 + WINDOW_MS))
    as [Hans Hrec]; try done.
  - by rewrite lookup_insert_eq.
  - rewrite Hlen. unfold MAX_ATTEMPTS. lia.
  - split.
    + rewrite Hans, Hlen. done.
    + intros password now Hnow.
      eapply login_locked; [done | done | exact Hrec | | done].
      cbn [count]. rewrite Hlen. unfold MAX_ATTEMPTS. lia.
Qed.

(** X17. A record counts only inside its window: once the time is past its
    [resetTime], however many failures it holds, the right password logs in
    and removes the record, and a wrong one is answered 401 and starts a new
    record with one failure and a window of fifteen minutes from now. *)
Theorem lockout_ends_with_window (loginAttempts : gmap string attempts)
    (env : gmap string string) (password : value) (ip : string) (now : Z)
    (a : attempts) :
  configured env → ip ≠ EmptyString →
  loginAttempts !! ip = Some a →
  resetTime a < now →
  login jwt_sign loginAttempts env password (Some ip) None now
  = if wrong_password env password
    then (<[ip := {| count := 1; resetTime := now + WINDOW_MS |}]>
            loginAttempts,
          Failure 401 "Invalid password")
    else (delete ip loginAttempts,
          Json {| token := jwt_sign (default EmptyString
                                       (env !! "JWT_SECRET")) |}).
Proof.
  intros [Hp Hs] Hip Hsome Hpast. unfold login, wrong_password.
  rewrite Hp, Hs. simpl.
  assert (Hcl : (if String.eqb ip EmptyString then "unknown" else ip) = ip).
  { destruct (String.eqb ip EmptyString) eqn:He; [|done].
    by apply String.eqb_eq in He. }
  rewrite Hcl, Hsome. simpl.
  assert (Hw : (resetTime a <? now) = true) by lia. rewrite Hw. simpl.
  by destruct (negb (truthy password) || _).
Qed.

(** ** The Authorization header *)

Lemma split_space_spaceless (s : string) :
  spaceless s = true → split_space s = [s].
Proof.
  induction s as [|c s IH]; simpl; [done|].
  intros H. apply andb_true_iff in H as [Hc Hs].
  apply negb_true_iff in Hc. rewrite Hc, IH; done.
Qed.

Lemma split_space_word (a b : string) :
  spaceless a = true → split_space (a +:+ " " +:+ b) = a :: split_space b.
Proof.
  induction a as [|c a IH]; intros H.
  - done.
  - simpl in H. apply andb_true_iff in H as [Hc Hs].
    apply negb_true_iff in Hc.
    change (String c a +:+ " " +:+ b) with (String c (a +:+ " " +:+ b)).
    cbn [split_space]. by rewrite Hc, IH.
Qed.

Lemma append_space_nonempty (a b : string) :
  String.eqb (a +:+ " " +:+ b) EmptyString = false.
Proof. by destruct a. Qed.

(** X18. The token of a request is the second space-separated word of its
    Authorization header, whatever the first word is and whatever follows
    the second; a header of one word carries no token. *)
Theorem bearer_token_second_word (scheme tok rest : string) :
  spaceless scheme = true → spaceless tok = true →
  bearer_token (Some (scheme +:+ " " +:+ tok)) = Some tok
  ∧ bearer_token (Some (scheme +:+ " " +:+ tok +:+ " " +:+ rest)) = Some tok
  ∧ (scheme ≠ EmptyString → bearer_token (Some scheme) = None).
Proof.
  intros Hs Ht. unfold bearer_token. split; [|split].
  - rewrite append_space_nonempty, split_space_word by done.
    by rewrite split_space_spaceless.
  - rewrite append_space_nonempty, split_space_word by done.
    by rewrite split_space_word.
  - intros Hne. destruct (String.eqb scheme EmptyString) eqn:He.
    + by apply String.eqb_eq in He.
    + by rewrite split_space_spaceless.
Qed.

Lemma secret_usable (JWT_SECRET : option string) :
  secret_unusable JWT_SECRET = false
  ↔ ∃ secret, JWT_SECRET = Some secret ∧ secret ≠ EmptyString
              ∧ secret ≠ default_secret.
Proof.
  unfold secret_unusable. destruct JWT_SECRET as [secret|]; simpl.
  - rewrite orb_false_iff, negb_false_iff, negb_true_iff. split.
    + intros [H1 H2]. exists secret. split; [done|].
      split; intros ->; by rewrite String.eqb_refl in *.
    + intros (s' & [= <-] & H1 & H2). split; by apply String.eqb_neq.
  - split; [done|]. by intros (s' & ? & _).
Qed.

(** X19. The middleware hands a request on exactly when its header carries a
    non-empty token, the server's secret is set and is not the placeholder
    'your-secret-key-change-this', and the token verifies under that secret;
    and [/verify] reports [authenticated: true] for exactly the headers the
    middleware lets through. *)
Theorem authenticateToken_passes_iff (env : gmap string string)
    (authHeader : option string) :
  (authenticateToken jwt_verify env authHeader = Next
   ↔ ∃ tok secret,
       bearer_token authHeader = Some tok ∧ tok ≠ EmptyString
       ∧ env !! "JWT_SECRET" = Some secret
       ∧ secret ≠ EmptyString ∧ secret ≠ default_secret
       ∧ jwt_verify tok secret = true)
  ∧ (authenticated (verify jwt_verify env authHeader).2 = true
     ↔ authenticateToken jwt_verify env authHeader = Next).
Proof.
  unfold authenticateToken, verify. split.
  - destruct (bearer_token authHeader) as [tok|]; simpl.
    2:{ split; [done|]. by intros (? & ? & ? & _). }
    destruct (String.eqb tok EmptyString) eqn:Ht; simpl.
    { apply String.eqb_eq in Ht as ->. split; [done|].
      by intros (? & ? & [= <-] & ? & _). }
    apply String.eqb_neq in Ht.
    destruct (secret_unusable (env !! "JWT_SECRET")) eqn:Hs.
    { split; [done|]. intros (t & secret & _ & _ & Hsec & H1 & H2 & _).
      assert (secret_unusable (env !! "JWT_SECRET") = false) as Hu.
      { apply secret_usable. by exists secret. }
      by rewrite Hu in Hs. }
    apply secret_usable in Hs as (secret & Hsec & H1 & H2).
    rewrite Hsec. simpl.
    destruct (jwt_verify tok secret) eqn:Hv.
    + split; [|done]. intros _. by exists tok, secret.
    + split; [done|]. intros (t & s' & [= <-] & _ & [= <-] & _ & _ & Hv').
      by rewrite Hv in Hv'.
  - destruct (negb (str_truthy (bearer_token authHeader))); simpl; [done|].
    destruct (secret_unusable (env !! "JWT_SECRET")); simpl; [done|].
    by destruct (jwt_verify _ _).
Qed.

End AuthProperties.

(** * The further properties at particular inputs *)

Lemma sample_state_reachable : reachable (rt := sample_rt) sample_state.
Proof. apply (reach_initialize (rt := sample_rt)), reach_new. Qed.

Lemma registry_filed_by_id_witness :
  NoDup (info_id <$> getAllConnections (connections sample_state))
  ∧ ∀ dbId db, getConnection (connections sample_state) dbId = Returns db →
               id (descriptor db) = dbId.
Proof.
  destruct (registry_filed_by_id (rt := sample_rt) sample_state
              sample_state_reachable) as (Hnd & _ & Hget).
  split; [exact Hnd | exact Hget].
Defined.

Lemma query_failure_wrapped_witness :
  (getConnection (connections sample_state) "db_2"
   = Throws (Error "Query failed: Invalid object name 'missing'.")
   ∧ trace (query (rt := sample_rt) (connections sample_state) "db_2"
              sample_bad_statement [])
     = [])
  ∨ (∃ db msg, getConnection (connections sample_state) "db_2" = Returns db
       ∧ msg ≠ EmptyString
       ∧ Error "Query failed: Invalid object name 'missing'."
         = Error ("Query failed: " +:+ msg)).
Proof.
  apply (query_failure_wrapped (rt := sample_rt) (connections sample_state)
           "db_2" sample_bad_statement []).
  vm_compute. reflexivity.
Defined.

Lemma query_sends_params_to_pool_witness :
  ∃ cfg,
    trace (query (rt := sample_rt) (connections sample_state) "main"
             "SELECT $1" [VNum 7])
    = [PgQuery cfg "SELECT $1" [VNum 7]].
Proof.
  destruct (getConnection (connections sample_state) "main") as [db|e]
    eqn:Hget; [|vm_compute in Hget; discriminate Hget].
  destruct (connection db) as [[cfg [|]|cfg|cfg]|] eqn:Hconn;
    try (vm_compute in Hget; injection Hget as <-; discriminate Hconn).
  exists cfg.
  destruct (query_sends_params_to_pool (rt := sample_rt)
              (connections sample_state) "main" "SELECT $1" [VNum 7] db cfg
              Hget) as [Hpg _].
  destruct Hpg as [Hlive _].
  - vm_compute in Hget. injection Hget as <-. apply list_elem_of_here.
  - apply Hlive. exact Hconn.
Defined.

Lemma query_mssql_ignores_params_witness :
  query (rt := sample_rt) (connections sample_state) "db_2" "SELECT ?"
        [VNum 1]
  = query (rt := sample_rt) (connections sample_state) "db_2" "SELECT ?"
          [VStr "two"; VNull].
Proof.
  destruct (getConnection (connections sample_state) "db_2") as [db|e]
    eqn:Hget; [|vm_compute in Hget; discriminate Hget].
  apply (query_mssql_ignores_params (rt := sample_rt)
           (connections sample_state) "db_2" "SELECT ?" _ _ db Hget).
  vm_compute in Hget. injection Hget as <-. apply list_elem_of_here.
Defined.

Lemma reload_ends_every_pool_witness :
  ∃ built,
    (reloadConnections (rt := sample_rt) [] sample_state).1
    = (PoolEnd <$> pools_of (connections sample_state)) ++ built
    ∧ Forall builds_pool built.
Proof.
  apply (reload_ends_every_pool (rt := sample_rt) [] sample_state
           sample_state_reachable).
Defined.

Lemma routes_surface_lookup_failure_witness :
  get_tables (rt := sample_rt) (connections sample_state) "nope"
  = ([], Failure 500 "Database nope not found")
  ∧ get_tables (rt := sample_rt) (connections sample_state) "legacy"
    = ([], Failure 500
             "Database legacy is not connected: Unsupported database type: oracle").
Proof.
  split.
  - apply (routes_surface_lookup_failure (rt := sample_rt)
             (connections sample_state) "nope" "t" (NotFound "nope")).
    vm_compute. reflexivity.
  - apply (routes_surface_lookup_failure (rt := sample_rt)
             (connections sample_state) "legacy" "t"
             (NotConnected "legacy" "Unsupported database type: oracle")).
    vm_compute. reflexivity.
Defined.

Lemma delete_row_one_statement_witness :
  ∃ cfg,
    (delete_row (rt := sample_rt) (connections sample_state) "db_4" "t"
       (VStr "id") (VNum 3)).1
    = [MysqlExecute cfg ("DELETE FROM " +:+ "t" +:+ " WHERE "
                           +:+ "id" +:+ " = ?")
                    [VNum 3]].
Proof.
  destruct (getConnection (connections sample_state) "db_4") as [db|e]
    eqn:Hget; [|vm_compute in Hget; discriminate Hget].
  destruct (connection db) as [[cfg b|cfg|cfg]|] eqn:Hconn;
    try (vm_compute in Hget; injection Hget as <-; discriminate Hconn).
  exists cfg.
  destruct (delete_row_one_statement (rt := sample_rt)
              (connections sample_state) "db_4" "t" "id" (VNum 3) db cfg Hget)
    as [_ Hmy].
  - discriminate.
  - reflexivity.
  - apply Hmy; [|exact Hconn].
    vm_compute in Hget. injection Hget as <-.
    apply list_elem_of_further, list_elem_of_here.
Defined.

Lemma post_row_binds_every_value_witness :
  ∃ cfg,
    (post_row (rt := sample_rt) (connections sample_state) "main" "t"
       (VObj [("id", VNum 4); ("val", VStr "d")])).1
    = [PgQuery cfg
         ("INSERT INTO " +:+ "t" +:+ " (" +:+ join ", " ["id"; "val"]
            +:+ ") VALUES (" +:+ join ", " ["$1"; "$2"] +:+ ")")
         [VNum 4; VStr "d"]].
Proof.
  destruct (getConnection (connections sample_state) "main") as [db|e]
    eqn:Hget; [|vm_compute in Hget; discriminate Hget].
  destruct (connection db) as [[cfg [|]|cfg|cfg]|] eqn:Hconn;
    try (vm_compute in Hget; injection Hget as <-; discriminate Hconn).
  exists cfg.
  destruct (post_row_binds_every_value (rt := sample_rt)
              (connections sample_state) "main" "t"
              [("id", VNum 4); ("val", VStr "d")] db cfg Hget) as [Hpg _].
  destruct Hpg as [Hlive _].
  - vm_compute in Hget. injection Hget as <-. apply list_elem_of_here.
  - apply Hlive. exact Hconn.
Defined.

Lemma put_row_known_keys_aligned_witness :
  ∃ cfg,
    (put_row (rt := sample_rt) (connections sample_state) "main" "t"
       (VStr "id") (VNum 1) (VObj [("val", VStr "y")])).1
    = [PgQuery cfg schema_query_postgres [VStr "public"; VStr "t"];
       PgQuery cfg "UPDATE t SET val = $1 WHERE id = $2"
               [VStr "y"; VNum 1]].
Proof.
  destruct (getConnection (connections sample_state) "main") as [db|e]
    eqn:Hget; [|vm_compute in Hget; discriminate Hget].
  destruct (connection db) as [[cfg [|]|cfg|cfg]|] eqn:Hconn;
    try (vm_compute in Hget; injection Hget as <-; discriminate Hconn).
  exists cfg.
  apply (put_row_known_keys_aligned (rt := sample_rt)
           (connections sample_state) "main" "t" (VStr "id") (VNum 1)
           [("val", VStr "y")] db cfg sample_columns (Some 2%Z) Hget).
  - vm_compute in Hget. injection Hget as <-. apply list_elem_of_here.
  - exact Hconn.
  - reflexivity.
  - reflexivity.
  - reflexivity.
  - reflexivity.
Defined.

Lemma getTables_catalog_query_witness :
  getTables (rt := sample_rt) (connections sample_state) "db_4"
  = query (rt := sample_rt) (connections sample_state) "db_4"
          tables_query_mysql [VStr "shop"].
Proof.
  destruct (getConnection (connections sample_state) "db_4") as [db|e]
    eqn:Hget; [|vm_compute in Hget; discriminate Hget].
  destruct (getTables_catalog_query (rt := sample_rt)
              (connections sample_state) "db_4" db Hget) as (_ & Hmy & _).
  rewrite Hmy.
  - vm_compute in Hget. injection Hget as <-. reflexivity.
  - vm_compute in Hget. injection Hget as <-.
    apply list_elem_of_further, list_elem_of_here.
Defined.

Lemma data_request_mysql_ignores_schema_witness :
  get_table_data (rt := sample_rt) (connections sample_state) "db_4" "t"
                 (Some "archive") (Some "10") None
  = get_table_data (rt := sample_rt) (connections sample_state) "db_4" "t"
                   None (Some "10") None.
Proof.
  destruct (getConnection (connections sample_state) "db_4") as [db|e]
    eqn:Hget; [|vm_compute in Hget; discriminate Hget].
  apply (data_request_mysql_ignores_schema (rt := sample_rt)
           (connections sample_state) "db_4" "t" db _ _ _ _ Hget).
  vm_compute in Hget. injection Hget as <-.
  apply list_elem_of_further, list_elem_of_here.
Defined.

Lemma sample_auth_configured : configured sample_auth_env.
Proof. split; vm_compute; reflexivity. Qed.

Lemma login_token_requires_witness :
  configured sample_auth_env
  ∧ VStr "hunter2" = VStr (default EmptyString (sample_auth_env !! "PASSWORD"))
  ∧ sample_sign "s3cret"
    = sample_sign (default EmptyString (sample_auth_env !! "JWT_SECRET")).
Proof.
  destruct (login_token_requires sample_sign ∅ sample_auth_env
              (VStr "hunter2") (Some "10.1.1.1") None 0%Z
              (delete "10.1.1.1" ∅) (sample_sign "s3cret"))
    as (Hconf & Hpw & Htok & _).
  - vm_compute. reflexivity.
  - split; [exact Hconf|]. split; [exact Hpw | exact Htok].
Defined.

Lemma five_failures_lock_out_witness :
  let stale : gmap string attempts :=
    {[ "10.1.1.1" := {| count := 7; resetTime := (-1) |} ]} in
  let r := login_run sample_sign stale sample_auth_env "10.1.1.1"
             [(VStr "a", 0%Z); (VStr "b", 1000%Z); (VNull, 2000%Z);
              (VStr "c", 3000%Z); (VStr "d", 900000%Z)] in
  r.2 = replicate 5 (Failure 401 "Invalid password")
  ∧ login sample_sign r.1 sample_auth_env (VStr "hunter2")
          (Some "10.1.1.1") None 900000%Z
    = (r.1, Failure 429 "Too many login attempts. Please try again later.").
Proof.
  intros stale r.
  destruct (five_failures_lock_out sample_sign stale sample_auth_env
              "10.1.1.1" (VStr "a") 0%Z
              [(VStr "b", 1000%Z); (VNull, 2000%Z); (VStr "c", 3000%Z);
               (VStr "d", 900000%Z)])
    as [Hans Hlock].
  - exact sample_auth_configured.
  - discriminate.
  - intros a Ha. unfold stale in Ha. rewrite lookup_singleton_eq in Ha.
    injection Ha as <-. reflexivity.
  - reflexivity.
  - reflexivity.
  - repeat constructor; vm_compute; (reflexivity || discriminate).
  - split; [exact Hans|]. apply Hlock. vm_compute. discriminate.
Defined.

Lemma lockout_ends_with_window_witness :
  login sample_sign
        {[ "10.1.1.1" := {| count := 5; resetTime := 900000 |} ]}
        sample_auth_env (VStr "hunter2") (Some "10.1.1.1") None 900001%Z
  = (delete "10.1.1.1"
       {[ "10.1.1.1" := {| count := 5; resetTime := 900000 |} ]},
     Json {| token := sample_sign "s3cret" |}).
Proof.
  apply (lockout_ends_with_window sample_sign
           {[ "10.1.1.1" := {| count := 5; resetTime := 900000 |} ]}
           sample_auth_env (VStr "hunter2") "10.1.1.1" 900001%Z
           {| count := 5; resetTime := 900000 |}).
  - exact sample_auth_configured.
  - discriminate.
  - reflexivity.
  - reflexivity.
Defined.

Lemma bearer_token_second_word_witness :
  bearer_token (Some "Bearer abc.def") = Some "abc.def"
  ∧ bearer_token (Some "Basic abc.def trailing words") = Some "abc.def"
  ∧ bearer_token (Some "Bearer") = None.
Proof.
  split; [|split].
  - apply (bearer_token_second_word "Bearer" "abc.def" EmptyString);
      reflexivity.
  - apply (bearer_token_second_word "Basic" "abc.def" "trailing words");
      reflexivity.
  - apply (bearer_token_second_word "Bearer" "x" EmptyString);
      (reflexivity || discriminate).
Defined.

Lemma createConnection_mysql_pool_witness :
  ∃ cfg,
    trace (createConnection (rt := sample_rt) sample_mysql_sized)
    = [CreatePool cfg]
    ∧ obj_get cfg "connectionLimit" = VNum 2
    ∧ obj_get cfg "waitForConnections" = VBool true
    ∧ obj_get cfg "host" = VStr "10.0.0.7".
Proof.
  destruct (createConnection_mysql_pool (rt := sample_rt) sample_mysql_sized
              [("connectionLimit", VNum 2)])
    as (cfg & Hc & Hgiven & _ & Hwait & Hhost & _).
  - apply list_elem_of_here.
  - reflexivity.
  - apply (bool_decide_unpack _). vm_compute. exact I.
  - exists cfg. split; [by rewrite Hc|].
    split; [apply Hgiven, list_elem_of_here|].
    split; [apply Hwait; reflexivity | apply Hhost; reflexivity].
Defined.

Lemma reload_after_deleting_lines_witness :
  let st := {| process_env := ∅; connections := [] |} in
  (reloadConnections (rt := sample_rt) [("DB_1_TYPE", "postgres")]
     (reloadConnections (rt := sample_rt)
        [("DB_1_TYPE", "postgres"); ("DB_2_TYPE", "mysql")] st).2).2
  = (reloadConnections (rt := sample_rt)
       [("DB_1_TYPE", "postgres"); ("DB_2_TYPE", "mysql")] st).2.
Proof.
  intros st.
  apply (reload_after_deleting_lines (rt := sample_rt)
           [("DB_1_TYPE", "postgres"); ("DB_2_TYPE", "mysql")]
           [("DB_1_TYPE", "postgres")] st).
  apply map_subseteq_spec. intros k v Hk.
  unfold assignments in *. simpl in *.
  apply lookup_insert_Some in Hk as [[<- <-]|[_ Hk]]; [|done].
  vm_compute. reflexivity.
Defined.
